(** * Kafka boat simulator: the work partitioning and the lock-step
      round scheduler of [KafkaBoatSimulator.py]

    The development embeds the functions of [KafkaBoatSimulator.py] that
    decide how many boats a worker claims, how a boat replays its rows,
    how the workers drain the shared queue and how a worker walks its
    batch round by round; the theorems at the end settle the numbered
    claims of the specification against these definitions. *)

From Stdlib Require Import ZArith QArith Qround Lia Ascii.
From stdpp Require Import gmap strings list pretty.

Local Open Scope Z_scope.

(** ** Exceptions and results

    Python exceptions that the modelled code can raise are values of
    [exn]; a call either returns or raises. *)

Inductive exn : Type :=
  | ZeroDivisionError
  | OverflowError
  | FileNotFoundError
  | UnicodeDecodeError
  | PublishError.

Inductive result (A : Type) : Type :=
  | Ok (a : A)
  | Raise (e : exn).
Arguments Ok {A} a.
Arguments Raise {A} e.

(** ** Configuration constants (module level of the script) *)

Definition N_BOATS : Z := 10000.
Definition MAX_WORKER_THREADS : Z := 20.
Definition START_ROW : Z := 1.
Definition END_ROW : Z := 10000.

(** ** Per-worker capacity: [calculate_boats_per_thread]

    The function reads the globals [N_BOATS] and [MAX_WORKER_THREADS];
    here they are the arguments [n] and [w].

    [n // w] is Python's floor division, which is [Z.div].  The product
    [base_boats_per_thread * buffer_factor] is a binary64 product and
    [int] truncates it.  For [base < 2^52] the products [base * 1.5] and
    [base * 1.0] are exact, so [int] yields [3 * base / 2] and [base];
    for larger [base] the product is rounded, but it stays above the cap
    of 50 and the result is 50 either way.  Python raises [OverflowError]
    when [base] does not fit a double ([base >= 2^1024 - 2^970], which
    rounds to [2^1024]) or when the product rounds to infinity and [int]
    is applied to it (for the factor 1.5 this happens exactly above
    [double_limit_15]). *)

Definition double_limit_10 : Z := 2 ^ 1024 - 2 ^ 970 - 1.
Definition double_limit_15 : Z := (2 ^ 55 - 5) / 3 * 2 ^ 970.

Definition calculate_boats_per_thread (n w : Z) : result Z :=
  if w =? 0 then Raise ZeroDivisionError
  else
    let base_boats_per_thread := Z.max 1 (n / w) in
    if n >? w then
      (* buffer_factor = 1.5 *)
      if double_limit_15 <? base_boats_per_thread then Raise OverflowError
      else
        let boats_per_thread := Z.max 1 (3 * base_boats_per_thread / 2) in
        let boats_per_thread := Z.min boats_per_thread 50 in
        Ok (Z.max boats_per_thread 1)
    else
      (* buffer_factor = 1.0 *)
      if double_limit_10 <? base_boats_per_thread then Raise OverflowError
      else
        let boats_per_thread := Z.max 1 base_boats_per_thread in
        let boats_per_thread := Z.min boats_per_thread 50 in
        Ok (Z.max boats_per_thread 1).

(** The capacity as the specification words it:
    [clamp(ceil(N/W * bufferFactor), 1, CAP)] with [CAP = 50]. *)

Definition clamp (x lo hi : Z) : Z := Z.max lo (Z.min x hi).

Definition bufferFactor (n w : Z) : Q :=
  if n >? w then 3 # 2 else 1 # 1.

Definition capacity_spec (n w : Z) : Z :=
  clamp (Qceiling ((inject_Z n / inject_Z w) * bufferFactor n w)) 1 50.

(** What the code computes, in the same vocabulary: both divisions round
    down, and the quotient is raised to 1 before the factor applies. *)

Definition capacity_floor (n w : Z) : Z :=
  clamp (Qfloor (inject_Z (Z.max 1 (n / w)) * bufferFactor n w)) 1 50.

(** ** Rows and datasets

    [csv.DictReader] yields one dictionary per data line, from column
    name to the text of the cell.  A dataset is the sequence of rows the
    reader yields for a file that is read to its end, and [datasets]
    maps a path to it; a path outside the map is a file that cannot be
    opened.  Files whose reading fails on the way are the [CsvFile]s
    with a fault, further down. *)

Abbreviation Row := (gmap string string).
Abbreviation datasets := (gmap string (list Row)).

Local Open Scope string_scope.
Local Open Scope list_scope.
Local Open Scope Z_scope.

(** [f"BOAT_{boat_id:03d}"]: decimal digits, padded with zeros to three
    characters, the sign counted in the width. *)

Fixpoint zeros (k : nat) : string :=
  match k with
  | O => ""
  | S k' => String "0"%char (zeros k')
  end.

Definition zero_pad (width : nat) (digits : string) : string :=
  zeros (width - String.length digits) +:+ digits.

Definition format_03d (z : Z) : string :=
  if z <? 0 then "-" +:+ zero_pad 2 (pretty (- z)) else zero_pad 3 (pretty z).

(** [file_path.split('/')[-1]]: the text after the last slash. *)

Fixpoint last_segment (seg s : string) : string :=
  match s with
  | "" => seg
  | String c s' =>
      if bool_decide (c = "/"%char) then last_segment "" s'
      else last_segment (seg +:+ String c "") s'
  end.

(** [.replace('.csv', '')]: every occurrence, scanning from the left;
    [skip] counts the characters of a match still to be dropped. *)

Fixpoint remove_csv (skip : nat) (s : string) : string :=
  match s with
  | "" => ""
  | String c s' =>
      match skip with
      | S k => remove_csv k s'
      | O => if String.prefix ".csv" s then remove_csv 3 s'
             else String c (remove_csv 0 s')
      end
  end.

(** ** The boat state machine: class [BoatSimulationState]

    Instants of the wall clock are integers, in microseconds since the
    epoch ([time.time()] returns seconds as a double; the rate interval
    of 0.05 s is [RATE_INTERVAL]).  The cursor and the counter start at 0
    and only grow, so they are natural numbers. *)

Record BoatSimulationState : Type := {
  boat_id : Z;
  file_path : string;
  start_row : Z;
  end_row : Z;
  topic_name : string;
  unique_boat_id : string;
  original_boat : string;
  data_lines : list Row;
  current_index : nat;
  sent_count : nat;
  last_send_time : Z;
  completed : bool
}.

Definition RATE_INTERVAL : Z := 50000.

(** [load_data]: [for _ in range(start_row): next(reader, None)] drops
    one row per iteration and does nothing once the reader is empty;
    the second loop stops at the first index [i >= end_row - start_row]
    or at the end of the reader. *)

Fixpoint skip_rows (k : nat) (reader : list Row) : list Row :=
  match k with
  | O => reader
  | S k' => skip_rows k' (match reader with [] => [] | _ :: rest => rest end)
  end.

Fixpoint read_rows (i : Z) (limit : Z) (reader : list Row) : list Row :=
  match reader with
  | [] => []
  | row :: rest =>
      if i >=? limit then [] else row :: read_rows (i + 1) limit rest
  end.

Definition load_data (reader : list Row) (start_row end_row : Z) : list Row :=
  read_rows 0 (end_row - start_row) (skip_rows (Z.to_nat start_row) reader).

(** [__init__] on files that are read to their end: opening a missing
    file raises.  [BoatSimulationState_on_disk], further down, is the
    constructor on files whose reading can fail. *)

Definition BoatSimulationState_init (files : datasets)
    (boat_id : Z) (file_path : string) (start_row end_row : Z)
    (topic_name : string) : result BoatSimulationState :=
  match files !! file_path with
  | None => Raise FileNotFoundError
  | Some reader =>
      Ok {| boat_id := boat_id;
            file_path := file_path;
            start_row := start_row;
            end_row := end_row;
            topic_name := topic_name;
            unique_boat_id := "BOAT_" +:+ format_03d boat_id;
            original_boat := remove_csv 0 (last_segment "" file_path);
            data_lines := load_data reader start_row end_row;
            current_index := 0;
            sent_count := 0;
            last_send_time := 0;
            completed := false |}
  end.

Definition has_next_message (b : BoatSimulationState) : bool :=
  (current_index b <? length (data_lines b))%nat && negb (completed b).

(** The state after one emission: [get_next_message] from
    [self.current_index += 1] on, with [t] the value of [time.time()]. *)

Definition emitted (b : BoatSimulationState) (t : Z) : BoatSimulationState :=
  {| boat_id := boat_id b;
     file_path := file_path b;
     start_row := start_row b;
     end_row := end_row b;
     topic_name := topic_name b;
     unique_boat_id := unique_boat_id b;
     original_boat := original_boat b;
     data_lines := data_lines b;
     current_index := S (current_index b);
     sent_count := S (sent_count b);
     last_send_time := t;
     completed :=
       if (length (data_lines b) <=? S (current_index b))%nat then true
       else completed b |}.

(** ** The world of one worker

    A worker observes the wall clock and calls its producer.  [now] is
    the clock; every observation and every [time.sleep(0.001)] is
    followed by a delay chosen by the environment ([elapse k] after the
    [k]-th such event), and a sleep lasts at least its millisecond.
    The delays are never negative: the model is of runs during which
    the wall clock is not set back.  [produce_raises k] tells whether
    the [k]-th call of [producer.produce] raises.  [strftime] is the
    formatting of an instant as [YYYY-MM-DDTHH:MM:SS.mmmZ].

    [can_send_now] compares doubles: the two instants are doubles of
    seconds and 0.05 is not a binary fraction, so two readings exactly
    [RATE_INTERVAL] apart compare either way, according to how the two
    were rounded, while a microsecond more is always enough and a
    microsecond less never is (for instants before the year 2106, whose
    doubles are less than half a microsecond off).
    [due_at_interval current last] is the outcome of the comparison for
    two such readings. *)

Record World : Type := {
  now : Z;
  events : nat;
  produce_calls : nat;
  delivered : list Row
}.

Record Env : Type := {
  elapse : nat → N;
  produce_raises : nat → bool;
  strftime : Z → string;
  due_at_interval : Z → Z → bool
}.

Section Simulator.

Variable env : Env.

Definition pass (d : Z) (w : World) : World :=
  {| now := now w + d + Z.of_N (elapse env (events w));
     events := S (events w);
     produce_calls := produce_calls w;
     delivered := delivered w |}.

Definition time_time (w : World) : Z * World := (now w, pass 0 w).

Definition time_sleep_1ms (w : World) : World := pass 1000 w.

Definition producer_produce (message : Row) (w : World) : result unit * World :=
  if produce_raises env (produce_calls w) then
    (Raise PublishError,
     {| now := now w; events := events w;
        produce_calls := S (produce_calls w);
        delivered := delivered w |})
  else
    (Ok tt,
     {| now := now w; events := events w;
        produce_calls := S (produce_calls w);
        delivered := delivered w ++ [message] |}).

Definition can_send_now (b : BoatSimulationState) (w : World) : bool * World :=
  let '(current_time, w1) := time_time w in
  let elapsed := current_time - last_send_time b in
  (if elapsed =? RATE_INTERVAL
   then due_at_interval env current_time (last_send_time b)
   else elapsed >=? RATE_INTERVAL, w1).

(** [get_next_message]: the row is a copy, so [data_lines] keeps the
    source row.  The clock is read twice: [datetime.now] for the stamp
    and [time.time()] for [last_send_time].  The lookup cannot miss,
    because [has_next_message] bounds the index. *)

Definition get_next_message (b : BoatSimulationState) (w : World)
    : option Row * BoatSimulationState * World :=
  if negb (has_next_message b) then (None, b, w)
  else
    match data_lines b !! current_index b with
    | None => (None, b, w)
    | Some source =>
        let '(instant, w1) := time_time w in
        let current_time := strftime env instant in
        let row := <["time" := current_time]> source in
        let row := <["timestamp" := current_time]> row in
        let row := <["boat" := unique_boat_id b]> row in
        let '(t, w2) := time_time w1 in
        (Some row, emitted b t, w2)
    end.

(** ** The round scheduler: [worker_thread_simulation] after the claim

    A visit is what the body of the inner [for] does for one boat:
    [continue] ([Skipped]); or the rate gate (with [naps] calls of
    [time.sleep]) followed by [get_next_message], whose value is
    produced ([Sent]), is falsy and dropped ([Silent]), or makes
    [producer.produce] raise ([Failed]). *)

Inductive visit : Type :=
  | Skipped
  | Sent (naps : nat) (message : Row)
  | Silent (naps : nat)
  | Failed (naps : nat) (message : Row).

(** [while not boat_state.can_send_now(): time.sleep(0.001)].  Every
    iteration moves the clock by a millisecond or more, so the loop
    leaves through its test within [deadline + 1 - now] iterations
    ([wait_until_due_leaves_by_test]); the count only makes the
    recursion structural.  The first component is the last value of
    [can_send_now]. *)

Fixpoint spin (fuel : nat) (b : BoatSimulationState) (w : World)
    : bool * nat * World :=
  let '(due, w1) := can_send_now b w in
  if due then (true, O, w1)
  else
    match fuel with
    | O => (false, O, w1)
    | S fuel' =>
        let '(d, naps, w2) := spin fuel' b (time_sleep_1ms w1) in
        (d, S naps, w2)
    end.

Definition wait_until_due (b : BoatSimulationState) (w : World)
    : bool * nat * World :=
  spin (Z.to_nat (last_send_time b + RATE_INTERVAL + 1 - now w)) b w.

(** [if message_data:] is false for [None] and for an empty dict. *)

Definition truthy (message_data : option Row) : bool :=
  match message_data with
  | None => false
  | Some row => negb (bool_decide (row = ∅))
  end.

Definition visit_boat (boat_state : BoatSimulationState) (w : World)
    : visit * BoatSimulationState * World :=
  if negb (has_next_message boat_state) then (Skipped, boat_state, w)
  else
    let '(_, naps, w1) := wait_until_due boat_state w in
    let '(message_data, boat_state', w2) := get_next_message boat_state w1 in
    match message_data with
    | Some row =>
        if truthy message_data then
          match producer_produce row w2 with
          | (Ok _, w3) => (Sent naps row, boat_state', w3)
          | (Raise _, w3) => (Failed naps row, boat_state', w3)
          end
        else (Silent naps, boat_state', w2)
    | None => (Silent naps, boat_state', w2)
    end.

(** The inner [for boat_state in local_boats]: the boats are visited in
    list order, each visit leaves its boat updated, and an exception
    ends the walk where it is raised, with the boats visited so far
    (the failing one included) already updated.  [total] is
    [total_messages_sent]. *)

Fixpoint round_loop (local_boats : list BoatSimulationState) (total : nat)
    (w : World)
    : list (string * visit) * list BoatSimulationState * World * result nat :=
  match local_boats with
  | [] => ([], [], w, Ok total)
  | boat_state :: rest =>
      let '(v, boat_state', w1) := visit_boat boat_state w in
      let entry := (unique_boat_id boat_state, v) in
      match v with
      | Failed _ _ => ([entry], boat_state' :: rest, w1, Raise PublishError)
      | _ =>
          let total1 := match v with Sent _ _ => S total | _ => total end in
          let '(entries, rest', w2, r) := round_loop rest total1 w1 in
          (entry :: entries, boat_state' :: rest', w2, r)
      end
  end.

(** The outer [for round_index in range(max_rounds)]; the result lists
    the rounds that were entered. *)

Fixpoint rounds_loop (rounds : nat) (local_boats : list BoatSimulationState)
    (total : nat) (w : World)
    : list (list (string * visit)) * list BoatSimulationState * World
      * result nat :=
  match rounds with
  | O => ([], local_boats, w, Ok total)
  | S rounds' =>
      let '(entries, boats1, w1, r) := round_loop local_boats total w in
      match r with
      | Raise e => ([entries], boats1, w1, Raise e)
      | Ok total1 =>
          let '(later, boats2, w2, r2) := rounds_loop rounds' boats1 total1 w1 in
          (entries :: later, boats2, w2, r2)
      end
  end.

(** [max_rounds = max(max_rounds, len(boat.data_lines))] over the batch. *)

Definition max_rounds (local_boats : list BoatSimulationState) : nat :=
  foldl (λ m boat, Nat.max m (length (data_lines boat))) O local_boats.

Record Outcome : Type := {
  schedule : list (list (string * visit));
  boats_after : list BoatSimulationState;
  world_after : World;
  returned : result nat
}.

(** [worker_thread_simulation] from [if not local_boats] on, for the
    batch [local_boats] this worker took from the queue (the claim loop
    before it is [claim_step] below).  The batch is private to the
    worker: no other thread holds one of its boats, so the boats are
    values threaded through the loops.  The message handed to
    [producer.produce] is [json.dumps(message_data).encode('utf-8')];
    it is recorded here as the row it serialises.  Setting up and
    stopping the producer and the progress prints are left out. *)

Definition worker_thread_simulation (local_boats : list BoatSimulationState)
    (w : World) : Outcome :=
  match local_boats with
  | [] => {| schedule := []; boats_after := []; world_after := w;
             returned := Ok O |}
  | _ =>
      let '(sched, boats, w', r) :=
        rounds_loop (max_rounds local_boats) local_boats O w in
      {| schedule := sched; boats_after := boats; world_after := w';
         returned := r |}
  end.

(** The operations of the state machine, for sequences of calls. *)

Inductive operation : Type :=
  | OpHasNext
  | OpCanSend
  | OpGetNext.

Definition apply_operation (st : BoatSimulationState * World) (o : operation)
    : BoatSimulationState * World :=
  match o with
  | OpHasNext => st
  | OpCanSend => (st.1, (can_send_now st.1 st.2).2)
  | OpGetNext =>
      let '(_, b', w') := get_next_message st.1 st.2 in (b', w')
  end.

Definition run_operations (ops : list operation)
    (st : BoatSimulationState * World) : BoatSimulationState * World :=
  foldl apply_operation st ops.

End Simulator.

(** ** The claim phase

    The orchestrator puts every boat in [boat_queue] before the pool
    starts; each of the workers then runs
    [while len(local_boats) < BOATS_PER_THREAD: get_nowait ...].  The
    test reads the worker's own list and [get_nowait] takes the head of
    the queue, or raises [queue.Empty], under the queue's lock, so one
    iteration of one worker is one atomic step.  [claim_step c i] is an
    iteration of worker [i]; a run of the phase is a sequence of worker
    indices, in the order the iterations take effect. *)

Record Claimer (A : Type) : Type := {
  local_boats : list A;
  claiming : bool
}.
Arguments local_boats {A} _.
Arguments claiming {A} _.

Record Pool (A : Type) : Type := {
  boat_queue : list A;
  workers : list (Claimer A)
}.
Arguments boat_queue {A} _.
Arguments workers {A} _.

Section ClaimPhase.

Context {A : Type}.
Variable BOATS_PER_THREAD : nat.

Definition claim_step (p : Pool A) (i : nat) : Pool A :=
  match workers p !! i with
  | None => p
  | Some c =>
      if negb (claiming c) then p
      else if (length (local_boats c) <? BOATS_PER_THREAD)%nat then
        match boat_queue p with
        | boat_state :: rest =>
            {| boat_queue := rest;
               workers :=
                 <[i := {| local_boats := local_boats c ++ [boat_state];
                           claiming := true |}]> (workers p) |}
        | [] =>
            {| boat_queue := [];
               workers :=
                 <[i := {| local_boats := local_boats c;
                           claiming := false |}]> (workers p) |}
        end
      else
        {| boat_queue := boat_queue p;
           workers :=
             <[i := {| local_boats := local_boats c;
                       claiming := false |}]> (workers p) |}
  end.

Definition claim_phase (order : list nat) (p : Pool A) : Pool A :=
  foldl claim_step p order.

Definition start_pool (boats : list A) (n_workers : nat) : Pool A :=
  {| boat_queue := boats;
     workers := replicate n_workers {| local_boats := []; claiming := true |} |}.

(** Every worker has left its claim loop. *)

Definition settled (p : Pool A) : bool :=
  forallb (λ c, negb (claiming c)) (workers p).

(** The boats held by the workers, worker by worker. *)

Definition claimed (p : Pool A) : list A :=
  mjoin (local_boats <$> workers p).

(** Worker [i] holds the boat [x]. *)

Definition holds (p : Pool A) (i : nat) (x : A) : Prop :=
  ∃ c, workers p !! i = Some c ∧ x ∈ local_boats c.

(** The number of iterations worker [i] has made in [order]. *)

Definition turns (i : nat) (order : list nat) : nat :=
  length (filter (λ k, k = i) order).

(** What holds of the pool after the iterations in [order], for
    [n_workers] workers and the boats [boats] put in the queue. *)

Record claim_invariant (n_workers : nat) (boats : list A)
    (order : list nat) (p : Pool A) : Prop := {
  inv_workers : length (workers p) = n_workers;
  inv_perm : claimed p ++ boat_queue p ≡ₚ boats;
  inv_cap :
    Forall (λ c, length (local_boats c) ≤ BOATS_PER_THREAD)%nat (workers p);
  inv_left :
    Forall (λ c, claiming c = false →
                 length (local_boats c) = BOATS_PER_THREAD
                 ∨ boat_queue p = []) (workers p);
  inv_turns :
    ∀ i c, workers p !! i = Some c → claiming c = true →
           length (local_boats c) = turns i order
}.

End ClaimPhase.

(** ** The aggregator

    [for future in as_completed(futures)]: the count of a worker that
    returned is added to [total_messages]; the exception of a worker
    that raised is printed and the loop goes on.  [futures] lists the
    results in completion order. *)

Fixpoint collect_results (futures : list (result nat)) (total_messages : nat)
    (printed : list exn) : nat * list exn :=
  match futures with
  | [] => (total_messages, printed)
  | Ok messages_sent :: later =>
      collect_results later (total_messages + messages_sent)%nat printed
  | Raise exc :: later =>
      collect_results later total_messages (printed ++ [exc])
  end.

(** A worker task of a run: its batch and the world it meets.  The
    workers share nothing but the clock and the broker once the claim
    phase is over, so each task runs in an environment of its own. *)

Record Task : Type := {
  task_env : Env;
  task_world : World;
  task_boats : list BoatSimulationState
}.

Definition run_task (t : Task) : Outcome :=
  worker_thread_simulation (task_env t) (task_boats t) (task_world t).

Definition total_messages (tasks : list Task) : nat :=
  (collect_results (returned <$> (run_task <$> tasks)) O []).1.

(** ** The script, up to the start of the pool

    A CSV file on disk is its header line ([None] for a file without
    one), the rows [csv.DictReader] yields, and how the reading ends
    after them: [fault] is [None] when the file ends there, and
    [Some exc] when the read that follows raises [exc] (bytes that do
    not decode, a line the parser refuses, an error of the device).  A
    path outside [d] is a file that cannot be opened, or whose header
    cannot be read.  [records <$> d] is the disk as the datasets of
    [BoatSimulationState_init]. *)

Record CsvFile : Type := {
  fieldnames : option (list string);
  records : list Row;
  fault : option exn
}.

Abbreviation disk := (gmap string CsvFile).

Definition file_paths : list string :=
  ["orderedData/ITA.csv"; "orderedData/USA.csv"; "orderedData/GBR.csv";
   "orderedData/NZL.csv"; "orderedData/FRA.csv"; "orderedData/SUI.csv"].

Definition TOPIC_NAME : string := "boat_data".

(** How a part of the script ends: it returns, it calls [exit], or an
    exception leaves it. *)

Inductive ending (A : Type) : Type :=
  | Returns (a : A)
  | Exits (status : Z)
  | Uncaught (e : exn).
Arguments Returns {A} a.
Arguments Exits {A} status.
Arguments Uncaught {A} e.

(** [preload_csv_files]: for each path, in order, the header is stored
    in [preloaded_data]; a file that cannot be read ends the script with
    [exit(1)]. *)

Fixpoint preload_loop (d : disk) (paths : list string)
    (preloaded_data : gmap string (option (list string)))
    : ending (gmap string (option (list string))) :=
  match paths with
  | [] => Returns preloaded_data
  | file_path :: later =>
      match d !! file_path with
      | Some file =>
          preload_loop d later (<[file_path := fieldnames file]> preloaded_data)
      | None => Exits 1
      end
  end.

Definition preload_csv_files (d : disk)
    : ending (gmap string (option (list string))) :=
  preload_loop d file_paths ∅.

(** [N_BOATS/MAX_WORKER_THREADS], printed by [main], is a true division
    of integers: it raises [OverflowError] when the quotient does not
    fit a double. *)

Definition true_division_overflows (n w : Z) : bool :=
  (double_limit_10 + 1) * Z.abs w <=? Z.abs n.

(** [main]: the capacity, the banner, the headers, the connection to
    the broker ([kafka_reachable] tells whether [KafkaClient] returns). *)

Definition main (n_boats max_worker_threads : Z) (d : disk)
    (kafka_reachable : bool)
    : ending (Z * gmap string (option (list string))) :=
  match calculate_boats_per_thread n_boats max_worker_threads with
  | Raise e => Uncaught e
  | Ok boats_per_thread =>
      if true_division_overflows n_boats max_worker_threads
      then Uncaught OverflowError
      else
        match preload_csv_files d with
        | Returns preloaded_data =>
            if kafka_reachable then Returns (boats_per_thread, preloaded_data)
            else Exits 1
        | Exits status => Exits status
        | Uncaught e => Uncaught e
        end
  end.

(** [load_data] on a file of the disk.  [next(reader, None)] turns
    the end of the file into [None] and lets any other exception
    through; the [for] over [enumerate(reader)] asks for a row before
    it tests [i], so it reads one row past the window before it
    breaks.  [rows] are the rows still to come. *)

Fixpoint skip_rows_on_disk (k : nat) (rows : list Row) (fault : option exn)
    : result (list Row) :=
  match k with
  | O => Ok rows
  | S k' =>
      match rows with
      | _ :: rest => skip_rows_on_disk k' rest fault
      | [] =>
          match fault with
          | Some exc => Raise exc
          | None => skip_rows_on_disk k' [] fault
          end
      end
  end.

Fixpoint read_rows_on_disk (i : Z) (limit : Z) (rows : list Row)
    (fault : option exn) : result (list Row) :=
  match rows with
  | [] =>
      match fault with
      | Some exc => Raise exc
      | None => Ok []
      end
  | row :: rest =>
      if i >=? limit then Ok []
      else
        match read_rows_on_disk (i + 1) limit rest fault with
        | Ok data_lines => Ok (row :: data_lines)
        | Raise exc => Raise exc
        end
  end.

Definition load_data_on_disk (file : CsvFile) (start_row end_row : Z)
    : result (list Row) :=
  match skip_rows_on_disk (Z.to_nat start_row) (records file) (fault file) with
  | Raise exc => Raise exc
  | Ok reader => read_rows_on_disk 0 (end_row - start_row) reader (fault file)
  end.

(** [__init__] on the disk: the boat of [BoatSimulationState_init],
    unless the file cannot be opened or [load_data] raises. *)

Definition BoatSimulationState_on_disk (d : disk)
    (boat_id : Z) (file_path : string) (start_row end_row : Z)
    (topic_name : string) : result BoatSimulationState :=
  match d !! file_path with
  | None => Raise FileNotFoundError
  | Some file =>
      match load_data_on_disk file start_row end_row with
      | Raise exc => Raise exc
      | Ok data_lines =>
          Ok {| boat_id := boat_id;
                file_path := file_path;
                start_row := start_row;
                end_row := end_row;
                topic_name := topic_name;
                unique_boat_id := "BOAT_" +:+ format_03d boat_id;
                original_boat := remove_csv 0 (last_segment "" file_path);
                data_lines := data_lines;
                current_index := 0;
                sent_count := 0;
                last_send_time := 0;
                completed := false |}
      end
  end.

(** [random.choice(file_paths)]: one of the paths; [pick] is the draw. *)

Definition random_choice (pick : nat) : string :=
  default "" (file_paths !! (pick `mod` length file_paths)%nat).

(** [for boat_id in range(1, N_BOATS + 1)]: a boat is built on a drawn
    file and put at the end of the queue; an exception of the
    constructor leaves the loop.  [picks k] is the draw for boat [k]. *)

Fixpoint create_loop (d : disk) (picks : nat → nat) (remaining : nat)
    (boat_id : Z) (queue : list BoatSimulationState)
    : result (list BoatSimulationState) :=
  match remaining with
  | O => Ok queue
  | S remaining' =>
      let selected_file := random_choice (picks (Z.to_nat boat_id)) in
      match BoatSimulationState_on_disk d boat_id selected_file
              START_ROW END_ROW TOPIC_NAME with
      | Raise e => Raise e
      | Ok boat_state =>
          create_loop d picks remaining' (boat_id + 1)
            (queue ++ [boat_state])
      end
  end.

Definition create_boats (d : disk) (picks : nat → nat) (n_boats : Z)
    : result (list BoatSimulationState) :=
  create_loop d picks (Z.to_nat n_boats) 1 [].

(** The script from its first line to the start of the pool: [main()],
    then the boats. *)

Definition setup (n_boats max_worker_threads : Z) (d : disk)
    (kafka_reachable : bool) (picks : nat → nat)
    : ending (Z * list BoatSimulationState) :=
  match main n_boats max_worker_threads d kafka_reachable with
  | Returns (boats_per_thread, _) =>
      match create_boats d picks n_boats with
      | Ok queue => Returns (boats_per_thread, queue)
      | Raise e => Uncaught e
      end
  | Exits status => Exits status
  | Uncaught e => Uncaught e
  end.

(** The tasks of the pool once the claim phase is over: worker [i] runs
    its batch in the environment [envs i], from the world [worlds i]. *)

Definition pool_tasks (envs : nat → Env) (worlds : nat → World)
    (p : Pool BoatSimulationState) : list Task :=
  imap (λ i c, {| task_env := envs i; task_world := worlds i;
                  task_boats := local_boats c |}) (workers p).

(** ** Predicates used in the statements *)

(** The invariant behind C3, on any boat with at least one row. *)

Definition flag_tracks_cursor (b : BoatSimulationState) : Prop :=
  (current_index b ≤ length (data_lines b))%nat ∧
  (completed b = true ↔ current_index b = length (data_lines b)).

(** A boat as the constructor returns it. *)

Definition constructed (b : BoatSimulationState) : Prop :=
  ∃ files id path s e topic,
    BoatSimulationState_init files id path s e topic = Ok b.

Definition reliable (env : Env) : Prop :=
  ∀ k, produce_raises env k = false.

(** [progress r b0 b]: [b] is the boat [b0], fresh from the constructor,
    after [r] rounds. *)

Definition progress (r : nat) (b0 b : BoatSimulationState) : Prop :=
  data_lines b = data_lines b0 ∧
  unique_boat_id b = unique_boat_id b0 ∧
  current_index b = Nat.min r (length (data_lines b0)) ∧
  sent_count b = (sent_count b0 + Nat.min r (length (data_lines b0)))%nat ∧
  completed b =
    negb (length (data_lines b0) =? 0)%nat
    && (length (data_lines b0) <=? r)%nat.

(** What round [r] does to the boat [b0]. *)

Definition visited (r : nat) (b0 : BoatSimulationState)
    (entry : string * visit) : Prop :=
  entry.1 = unique_boat_id b0 ∧
  if (r <? length (data_lines b0))%nat
  then ∃ naps message, entry.2 = Sent naps message
  else entry.2 = Skipped.

Definition sent_total (bs : list BoatSimulationState) : nat :=
  sum_list (sent_count <$> bs).

(** The messages a schedule says the producer accepted. *)

Definition visit_message (v : visit) : list Row :=
  match v with
  | Sent _ message => [message]
  | _ => []
  end.

Definition round_messages (entries : list (string * visit)) : list Row :=
  entries ≫= (λ entry, visit_message entry.2).

Definition sent_messages (sched : list (list (string * visit))) : list Row :=
  sched ≫= round_messages.

(** A row without its two time fields, and row [r] of a boat as it is
    replayed: the time fields apart, the source row under the boat's id. *)

Definition unstamped (row : Row) : Row :=
  delete "timestamp" (delete "time" row).

Definition replayed (b : BoatSimulationState) (r : nat) : option Row :=
  (λ source, <["boat" := unique_boat_id b]> (unstamped source))
    <$> data_lines b !! r.

Definition round_rows (bs : list BoatSimulationState) (r : nat) : list Row :=
  omap (λ b, replayed b r) bs.

(** A message with both time fields, equal. *)

Definition stamped (message : Row) : Prop :=
  is_Some (message !! "time") ∧ message !! "timestamp" = message !! "time".

(** [advanced b b']: [b'] is [b] some emissions later. *)

Definition advanced (b b' : BoatSimulationState) : Prop :=
  boat_id b' = boat_id b ∧
  file_path b' = file_path b ∧
  start_row b' = start_row b ∧
  end_row b' = end_row b ∧
  topic_name b' = topic_name b ∧
  unique_boat_id b' = unique_boat_id b ∧
  original_boat b' = original_boat b ∧
  data_lines b' = data_lines b ∧
  (current_index b ≤ current_index b')%nat ∧
  (sent_count b' + current_index b = sent_count b + current_index b')%nat ∧
  (completed b = true → completed b' = true).

(** The cursor is within the rows, the flag is set only at their end,
    and the counter is the cursor. *)

Definition consistent (b : BoatSimulationState) : Prop :=
  (current_index b ≤ length (data_lines b))%nat ∧
  (completed b = true → current_index b = length (data_lines b)) ∧
  sent_count b = current_index b.

(** The counts of the workers that returned, and the exceptions of the
    others, in the order of [futures]. *)

Definition returned_counts (futures : list (result nat)) : list nat :=
  omap (λ r, match r with Ok n => Some n | Raise _ => None end) futures.

Definition raised (futures : list (result nat)) : list exn :=
  omap (λ r, match r with Ok _ => None | Raise e => Some e end) futures.

(** Every file of [file_paths] is on the disk. *)

Definition all_present (d : disk) : Prop :=
  Forall (λ file_path, is_Some (d !! file_path)) file_paths.

(** The reading of the window [start_row, end_row) does not meet the
    fault of the file: there is none, or it lies behind the row that
    follows the window. *)

Definition reads_through (file : CsvFile) (start_row end_row : Z) : Prop :=
  fault file = None ∨
  (Z.to_nat start_row + Z.to_nat (end_row - start_row)
   < length (records file))%nat.

(** The file drawn for boat [k] is on the disk and its configured
    window can be read. *)

Definition drawn_file_reads (d : disk) (picks : nat → nat) (k : Z) : Prop :=
  ∃ file, d !! random_choice (picks (Z.to_nat k)) = Some file ∧
          reads_through file START_ROW END_ROW.

(** The rows a list of boats holds. *)

Definition row_count (bs : list BoatSimulationState) : nat :=
  sum_list_with (λ b, length (data_lines b)) bs.

(** ** A concrete environment, for examples

    [strftime_utc] is [strftime('%Y-%m-%dT%H:%M:%S.%f')[:-3] + 'Z'] on a
    UTC instant given in microseconds since the epoch: the days are
    turned into a civil date, and the fraction is cut to milliseconds.
    [%Y] is the year in decimal without padding; the other fields are
    padded with zeros to their width. *)

Definition civil_from_days (days : Z) : Z * Z * Z :=
  let z := days + 719468 in
  let era := z / 146097 in
  let doe := z - era * 146097 in
  let yoe := (doe - doe / 1460 + doe / 36524 - doe / 146096) / 365 in
  let doy := doe - (365 * yoe + yoe / 4 - yoe / 100) in
  let mp := (5 * doy + 2) / 153 in
  let d := doy - (153 * mp + 2) / 5 + 1 in
  let m := if mp <? 10 then mp + 3 else mp - 9 in
  let y := yoe + era * 400 in
  (if m <=? 2 then y + 1 else y, m, d).

Definition strftime_utc (instant : Z) : string :=
  let seconds := instant / 1000000 in
  let micro := instant mod 1000000 in
  let second_of_day := seconds mod 86400 in
  let '(y, m, d) := civil_from_days (seconds / 86400) in
  pretty y +:+ "-" +:+ zero_pad 2 (pretty m) +:+ "-"
  +:+ zero_pad 2 (pretty d) +:+ "T"
  +:+ zero_pad 2 (pretty (second_of_day / 3600)) +:+ ":"
  +:+ zero_pad 2 (pretty (second_of_day mod 3600 / 60)) +:+ ":"
  +:+ zero_pad 2 (pretty (second_of_day mod 60)) +:+ "."
  +:+ zero_pad 3 (pretty (micro / 1000)) +:+ "Z".

(** A broker that accepts everything, and one whose [k]-th call of
    [produce] raises; in both the clock moves only while the worker
    sleeps, and two readings exactly [RATE_INTERVAL] apart compare as
    not yet due. *)

Definition calm : Env :=
  {| elapse := λ _, 0%N;
     produce_raises := λ _, false;
     strftime := strftime_utc;
     due_at_interval := λ _ _, false |}.

Definition failing_at (k : nat) : Env :=
  {| elapse := λ _, 0%N;
     produce_raises := λ call, bool_decide (call = k);
     strftime := strftime_utc;
     due_at_interval := λ _ _, false |}.

Definition world0 : World :=
  {| now := 1700000000123456;
     events := O;
     produce_calls := O;
     delivered := [] |}.

Definition sample_row (speed : string) : Row :=
  {[ "boat" := "ITA"; "time" := "2024-08-22T12:00:00.000Z";
     "timestamp" := "2024-08-22T12:00:00.000Z"; "speed" := speed ]}.

Definition ITA : string := "orderedData/ITA.csv".
Definition USA : string := "orderedData/USA.csv".
Definition SUI : string := "orderedData/SUI.csv".

Definition sample_files : datasets :=
  {[ ITA := [sample_row "31.2"; sample_row "31.9"; sample_row "32.4"];
     USA := (λ k : nat, sample_row (pretty k)) <$> seq 0 8;
     SUI := [] ]}.

(** The boats a list of constructor calls yields. *)

Definition built (r : result BoatSimulationState) : list BoatSimulationState :=
  match r with
  | Ok b => [b]
  | Raise _ => []
  end.

Definition boat_of (id : Z) (path : string) (s e : Z)
    : list BoatSimulationState :=
  built (BoatSimulationState_init sample_files id path s e "boat_data").

(** The scenario of the specification: windows of 5, 3 and 7 rows on
    one worker. *)

Definition scenario_batch : list BoatSimulationState :=
  boat_of 1 USA 1 6 ++ boat_of 2 USA 1 4 ++ boat_of 3 USA 1 8.

(** The first row of [ITA], as boat 1 emits it at [world0]. *)

Definition first_message : Row :=
  <["boat" := "BOAT_001"]>
    (<["timestamp" := "2023-11-14T22:13:20.123Z"]>
       (<["time" := "2023-11-14T22:13:20.123Z"]> (sample_row "31.2"))).

(** Boat 1 on the three rows of [ITA], as the constructor builds it,
    and the same boat after its three emissions. *)

Definition ita_rows : list Row :=
  [sample_row "31.2"; sample_row "31.9"; sample_row "32.4"].

Definition first_boat : BoatSimulationState :=
  {| boat_id := 1;
     file_path := ITA;
     start_row := 0;
     end_row := 3;
     topic_name := "boat_data";
     unique_boat_id := "BOAT_001";
     original_boat := "ITA";
     data_lines := ita_rows;
     current_index := 0;
     sent_count := 0;
     last_send_time := 0;
     completed := false |}.

Definition spent_boat : BoatSimulationState :=
  emitted (emitted (emitted first_boat 1700000000123456) 1700000000173456)
    1700000000223456.

Definition task_of (env : Env) (boats : list BoatSimulationState) : Task :=
  {| task_env := env; task_world := world0; task_boats := boats |}.

(** A disk with the six files, each with a header and the rows of
    [ita_rows], and the same disk with a file [ITA] whose bytes after
    the three rows do not decode. *)

Definition sample_file : CsvFile :=
  {| fieldnames := Some ["boat"; "time"; "timestamp"; "speed"];
     records := ita_rows;
     fault := None |}.

Definition damaged_file : CsvFile :=
  {| fieldnames := Some ["boat"; "time"; "timestamp"; "speed"];
     records := ita_rows;
     fault := Some UnicodeDecodeError |}.

Definition sample_disk : disk :=
  list_to_map ((λ path, (path, sample_file)) <$> file_paths).

Definition damaged_disk : disk := <[ITA := damaged_file]> sample_disk.

(** Three boats for a pool of two workers of capacity 1. *)

Definition sample_queue : list BoatSimulationState :=
  boat_of 1 ITA 0 3 ++ boat_of 2 ITA 1 3 ++ boat_of 3 USA 0 2.

Definition sample_order : list nat := [0; 1; 0; 1]%nat.

(** * Properties *)

(** ** Capacity *)

Example capacity_default :
  calculate_boats_per_thread N_BOATS MAX_WORKER_THREADS = Ok 50.
Proof. reflexivity. Qed.

Example unique_id_7 : "BOAT_" +:+ format_03d 7 = "BOAT_007".
Proof. reflexivity. Qed.

Example unique_id_1234 : "BOAT_" +:+ format_03d 1234 = "BOAT_1234".
Proof. reflexivity. Qed.

Example original_of_path :
  remove_csv 0 (last_segment "" "orderedData/ITA.csv") = "ITA".
Proof. reflexivity. Qed.

Lemma double_limits_large : 50 ≤ double_limit_10 ∧ 50 ≤ double_limit_15.
Proof. split; vm_compute; discriminate. Qed.

Lemma Qfloor_times_three_halves (b : Z) :
  Qfloor (inject_Z b * (3 # 2)) = 3 * b / 2.
Proof.
  unfold Qfloor, Qmult, inject_Z; simpl.
  f_equal; lia.
Qed.

Lemma Qfloor_times_one (b : Z) : Qfloor (inject_Z b * (1 # 1)) = b.
Proof.
  unfold Qfloor, Qmult, inject_Z; simpl.
  rewrite Z.mul_1_r. apply Z.div_1_r.
Qed.

Lemma capacity_floor_closed_form (n w : Z) :
  capacity_floor n w =
    if n >? w then Z.max 1 (Z.min (3 * Z.max 1 (n / w) / 2) 50)
    else Z.max 1 (Z.min (Z.max 1 (n / w)) 50).
Proof.
  unfold capacity_floor, clamp, bufferFactor.
  destruct (n >? w).
  - by rewrite Qfloor_times_three_halves.
  - by rewrite Qfloor_times_one.
Qed.

(** The value returned is always a capacity between 1 and 50. *)

Lemma calculate_boats_per_thread_range (n w c : Z) :
  calculate_boats_per_thread n w = Ok c → 1 ≤ c ≤ 50.
Proof.
  unfold calculate_boats_per_thread.
  repeat case_match; intros [= <-]; lia.
Qed.

(** C1 (as amended): for [N >= 1] and [W >= 1] whose quotient
    [floor(N/W)] is at most [double_limit_15] (the largest quotient
    whose product with 1.5 is a finite double), the capacity computed
    at setup is [clamp(floor(max(1, floor(N/W)) * bufferFactor), 1, 50)]
    with [bufferFactor] 1.5 if [N > W] and 1.0 otherwise: both
    roundings go down, not up.  For a larger quotient no capacity is
    computed: the call raises [OverflowError]. *)
Theorem calculate_boats_per_thread_floor (n w : Z) :
  1 ≤ n → 1 ≤ w →
  (n / w ≤ double_limit_15 →
     calculate_boats_per_thread n w = Ok (capacity_floor n w)) ∧
  (double_limit_15 < n / w →
     calculate_boats_per_thread n w = Raise OverflowError).
Proof.
  intros Hn Hw.
  pose proof double_limits_large as [H10 H15].
  rewrite capacity_floor_closed_form.
  unfold calculate_boats_per_thread.
  destruct (Z.eqb_spec w 0) as [->|_]; [lia|].
  destruct (Z.gtb_spec n w) as [Hgt|Hle].
  - assert (1 ≤ n / w) by (apply Z.div_le_lower_bound; lia).
    rewrite (Z.max_r 1 (n / w)) by lia.
    destruct (Z.ltb_spec double_limit_15 (n / w)).
    + split; [lia|done].
    + split; [|lia]. intros _. f_equal. lia.
  - assert (n / w ≤ 1) by (apply Z.div_le_upper_bound; lia).
    assert (0 ≤ n / w) by (apply Z.div_pos; lia).
    destruct (Z.ltb_spec double_limit_10 (Z.max 1 (n / w))); [lia|].
    split; [|lia]. intros _. f_equal. lia.
Qed.

(** C1, the claim as written fails: for 3 boats and 2 workers the
    script computes the capacity 1, where rounding up gives 3. *)
Lemma capacity_is_not_ceiling :
  (1 ≤ 3 ∧ 1 ≤ 2) ∧
  calculate_boats_per_thread 3 2 = Ok 1 ∧
  capacity_spec 3 2 = 3 ∧
  calculate_boats_per_thread 3 2 ≠ Ok (capacity_spec 3 2).
Proof.
  split; [lia|].
  split; [reflexivity|].
  split; [reflexivity|].
  vm_compute. discriminate.
Qed.

(** ** Loading a window *)

Lemma skip_rows_drop (k : nat) (reader : list Row) :
  skip_rows k reader = drop k reader.
Proof.
  revert reader. induction k as [|k IH]; intros reader; [by rewrite drop_0|].
  simpl. rewrite IH. by destruct reader; [rewrite !drop_nil|].
Qed.

Lemma read_rows_take (i limit : Z) (reader : list Row) :
  read_rows i limit reader = take (Z.to_nat (limit - i)) reader.
Proof.
  revert i. induction reader as [|row rest IH]; intros i; simpl.
  - by rewrite take_nil.
  - destruct (Z.geb_spec i limit) as [Hge|Hlt].
    + by replace (Z.to_nat (limit - i)) with O by lia.
    + replace (Z.to_nat (limit - i)) with (S (Z.to_nat (limit - (i + 1)))) by lia.
      simpl. by rewrite IH.
Qed.

Lemma load_data_take_drop (reader : list Row) (s e : Z) :
  load_data reader s e = take (Z.to_nat (e - s)) (drop (Z.to_nat s) reader).
Proof.
  unfold load_data. rewrite read_rows_take, skip_rows_drop.
  by rewrite Z.sub_0_r.
Qed.

Lemma load_data_length (reader : list Row) (s e : Z) :
  0 ≤ s ≤ e →
  Z.of_nat (length (load_data reader s e)) =
    Z.min (e - s) (Z.max 0 (Z.of_nat (length reader) - s)).
Proof.
  intros Hse. rewrite load_data_take_drop, length_take, length_drop. lia.
Qed.

Lemma init_data_lines (files : datasets) (id : Z) (path : string) (s e : Z)
    (topic : string) (b : BoatSimulationState) :
  BoatSimulationState_init files id path s e topic = Ok b →
  ∃ reader, files !! path = Some reader ∧
    data_lines b = load_data reader s e ∧
    current_index b = O ∧ sent_count b = O ∧ completed b = false.
Proof.
  unfold BoatSimulationState_init.
  destruct (files !! path) as [reader|]; [|discriminate].
  intros [= <-]. by exists reader.
Qed.

(** C10: when the dataset has fewer rows than the window [start_row,
    end_row) asks for, the constructor returns a boat all the same, and
    the boat holds the [min(end_row - start_row, max(0, rows_in_file -
    start_row))] rows from [start_row] to the end of the dataset. *)
Theorem load_data_truncates_at_end_of_dataset (files : datasets) (id : Z)
    (path : string) (s e : Z) (topic : string) (reader : list Row) :
  files !! path = Some reader →
  0 ≤ s ≤ e →
  Z.of_nat (length reader) < e →
  ∃ b, BoatSimulationState_init files id path s e topic = Ok b ∧
    data_lines b = drop (Z.to_nat s) reader ∧
    Z.of_nat (length (data_lines b)) =
      Z.min (e - s) (Z.max 0 (Z.of_nat (length reader) - s)).
Proof.
  intros Hfile Hse Hshort.
  unfold BoatSimulationState_init. rewrite Hfile.
  eexists; split; [reflexivity|]. simpl. split.
  - rewrite load_data_take_drop. apply take_ge. rewrite length_drop. lia.
  - by apply load_data_length.
Qed.

(** ** The boat state machine *)

Section BoatFacts.

Variable env : Env.

Lemma has_next_message_lookup (b : BoatSimulationState) :
  has_next_message b = true →
  ∃ source, data_lines b !! current_index b = Some source.
Proof.
  unfold has_next_message. intros [Hlt _]%andb_prop.
  apply Nat.ltb_lt in Hlt. by apply lookup_lt_is_Some_2.
Qed.

Lemma get_next_message_pending (b : BoatSimulationState) (w : World) :
  has_next_message b = true →
  ∃ source,
    data_lines b !! current_index b = Some source ∧
    get_next_message env b w =
      (Some (<["boat" := unique_boat_id b]>
               (<["timestamp" := strftime env (now w)]>
                  (<["time" := strftime env (now w)]> source))),
       emitted b (now (pass env 0 w)),
       pass env 0 (pass env 0 w)).
Proof.
  intros Hnext. destruct (has_next_message_lookup b Hnext) as [source Hsrc].
  exists source. split; [done|].
  unfold get_next_message. by rewrite Hnext, Hsrc.
Qed.

(** C6: with a message pending, [get_next_message] returns the current
    row with [boat] replaced by the boat's unique id and [time] and
    [timestamp] both set to the formatted instant of the emission, every
    other field as in the source row, which stays as it was; the cursor
    and the counter advance by one, [last_send_time] becomes the clock
    value just read, and the completion flag is set exactly when the
    cursor has reached the number of rows. *)
Theorem get_next_message_stamps_and_advances (b : BoatSimulationState)
    (w : World) :
  has_next_message b = true →
  ∃ source row b' w',
    get_next_message env b w = (Some row, b', w') ∧
    data_lines b !! current_index b = Some source ∧
    row !! "boat" = Some (unique_boat_id b) ∧
    row !! "time" = Some (strftime env (now w)) ∧
    row !! "timestamp" = Some (strftime env (now w)) ∧
    (∀ field, field ≠ "boat" → field ≠ "time" → field ≠ "timestamp" →
       row !! field = source !! field) ∧
    data_lines b' = data_lines b ∧
    unique_boat_id b' = unique_boat_id b ∧
    current_index b' = S (current_index b) ∧
    sent_count b' = S (sent_count b) ∧
    last_send_time b' = (time_time env (pass env 0 w)).1 ∧
    now w ≤ last_send_time b' ∧
    (completed b' = true ↔ current_index b' = length (data_lines b')).
Proof.
  intros Hnext.
  destruct (get_next_message_pending b w Hnext) as (source & Hsrc & Hget).
  eexists source, _, _, _. split; [exact Hget|].
  split; [done|].
  split; [by rewrite lookup_insert_eq|].
  split; [by rewrite lookup_insert_ne, lookup_insert_ne, lookup_insert_eq|].
  split; [by rewrite lookup_insert_ne, lookup_insert_eq|].
  split.
  { intros field Hb Ht Hts. by rewrite !lookup_insert_ne. }
  do 4 (split; [done|]).
  split; [done|].
  split; [simpl; lia|].
  unfold has_next_message in Hnext.
  apply andb_prop in Hnext as [Hlt Hnc]. apply Nat.ltb_lt in Hlt.
  apply negb_true_iff in Hnc. simpl. rewrite Hnc.
  destruct (Nat.leb_spec (length (data_lines b)) (S (current_index b)));
    split; intros; try done; lia.
Qed.

(** C7: with no message pending, [get_next_message] returns [None] and
    changes nothing: the boat (cursor, counter, [last_send_time],
    completion flag and all) and the world are the ones it was given. *)
Theorem get_next_message_idle (b : BoatSimulationState) (w : World) :
  has_next_message b = false →
  get_next_message env b w = (None, b, w).
Proof.
  intros Hnext. unfold get_next_message. by rewrite Hnext.
Qed.

Lemma apply_operation_keeps_rows (st : BoatSimulationState * World)
    (o : operation) :
  data_lines (apply_operation env st o).1 = data_lines st.1.
Proof.
  destruct st as [b w], o; simpl; try done.
  destruct (has_next_message b) eqn:Hnext.
  - destruct (get_next_message_pending b w Hnext) as (source & _ & ->). done.
  - unfold get_next_message. by rewrite Hnext.
Qed.

Lemma apply_operation_tracks (st : BoatSimulationState * World)
    (o : operation) :
  flag_tracks_cursor st.1 → flag_tracks_cursor (apply_operation env st o).1.
Proof.
  destruct st as [b w], o; simpl; try done.
  intros [Hle Hiff].
  destruct (has_next_message b) eqn:Hnext.
  - destruct (get_next_message_pending b w Hnext) as (source & _ & ->).
    unfold has_next_message in Hnext.
    apply andb_prop in Hnext as [Hlt Hnc]. apply Nat.ltb_lt in Hlt.
    apply negb_true_iff in Hnc.
    unfold flag_tracks_cursor. simpl. rewrite Hnc.
    destruct (Nat.leb_spec (length (data_lines b)) (S (current_index b)));
      (split; [lia|]); split; intros; try done; lia.
  - unfold get_next_message. by rewrite Hnext.
Qed.

Lemma run_operations_tracks (ops : list operation)
    (st : BoatSimulationState * World) :
  flag_tracks_cursor st.1 →
  flag_tracks_cursor (run_operations env ops st).1 ∧
  data_lines (run_operations env ops st).1 = data_lines st.1.
Proof.
  revert st. unfold run_operations.
  induction ops as [|o ops IH]; intros st Hst; [done|].
  simpl. destruct (IH (apply_operation env st o)) as [H1 H2].
  { by apply apply_operation_tracks. }
  split; [done|]. by rewrite H2, apply_operation_keeps_rows.
Qed.

(** C3 (as amended): for a boat built by the constructor with at least
    one row loaded, after any sequence of [has_next_message],
    [can_send_now] and [get_next_message] calls the completion flag is
    true if and only if the cursor equals the number of loaded rows. *)
Theorem completed_iff_cursor_at_end (files : datasets) (id : Z)
    (path : string) (s e : Z) (topic : string) (b : BoatSimulationState)
    (ops : list operation) (w : World) :
  BoatSimulationState_init files id path s e topic = Ok b →
  data_lines b ≠ [] →
  let b' := (run_operations env ops (b, w)).1 in
  completed b' = true ↔ current_index b' = length (data_lines b').
Proof.
  intros Hinit Hrows b'.
  destruct (init_data_lines _ _ _ _ _ _ _ Hinit)
    as (reader & _ & _ & Hidx & _ & Hflag).
  destruct (run_operations_tracks ops (b, w)) as [[_ Hiff] _]; [|done].
  split; simpl; [lia|].
  rewrite Hidx, Hflag. split; [done|].
  destruct (data_lines b); [done|discriminate].
Qed.

End BoatFacts.

(** ** The round scheduler *)

Section WorkerFacts.

Variable env : Env.

Lemma spin_leaves_by_test (fuel : nat) (b : BoatSimulationState) (w : World) :
  last_send_time b + RATE_INTERVAL + 1 - now w ≤ Z.of_nat fuel →
  (spin env fuel b w).1.1 = true.
Proof.
  revert w. induction fuel as [|fuel IH]; intros w Hfuel; simpl.
  - destruct (Z.eqb_spec (now w - last_send_time b) RATE_INTERVAL); [lia|].
    destruct (Z.geb_spec (now w - last_send_time b) RATE_INTERVAL); [done|lia].
  - destruct (if now w - last_send_time b =? RATE_INTERVAL
              then due_at_interval env (now w) (last_send_time b)
              else now w - last_send_time b >=? RATE_INTERVAL); [done|].
    specialize (IH (time_sleep_1ms env (pass env 0 w))).
    destruct (spin env fuel b (time_sleep_1ms env (pass env 0 w)))
      as [[d naps] w2].
    simpl in *. apply IH. lia.
Qed.

(** The rate gate is left only when the boat is due. *)

Lemma wait_until_due_leaves_by_test (b : BoatSimulationState) (w : World) :
  (wait_until_due env b w).1.1 = true.
Proof. apply spin_leaves_by_test. lia. Qed.

Lemma spin_produce_calls (fuel : nat) (b : BoatSimulationState) (w : World) :
  produce_calls (spin env fuel b w).2 = produce_calls w ∧
  delivered (spin env fuel b w).2 = delivered w.
Proof.
  revert w. induction fuel as [|fuel IH]; intros w; simpl.
  - by destruct (if now w - last_send_time b =? RATE_INTERVAL
                 then due_at_interval env (now w) (last_send_time b)
                 else now w - last_send_time b >=? RATE_INTERVAL).
  - destruct (if now w - last_send_time b =? RATE_INTERVAL
              then due_at_interval env (now w) (last_send_time b)
              else now w - last_send_time b >=? RATE_INTERVAL); [done|].
    specialize (IH (time_sleep_1ms env (pass env 0 w))).
    by destruct (spin env fuel b (time_sleep_1ms env (pass env 0 w)))
      as [[d naps] w2].
Qed.

Lemma visit_boat_skip (b : BoatSimulationState) (w : World) :
  has_next_message b = false → visit_boat env b w = (Skipped, b, w).
Proof. intros Hnext. unfold visit_boat. by rewrite Hnext. Qed.

Lemma visit_boat_pending (b : BoatSimulationState) (w : World) :
  has_next_message b = true →
  ∃ naps row t w',
    visit_boat env b w =
      (if produce_raises env (produce_calls w) then Failed naps row
       else Sent naps row,
       emitted b t, w').
Proof.
  intros Hnext. unfold visit_boat. rewrite Hnext. simpl.
  pose proof (spin_produce_calls
    (Z.to_nat (last_send_time b + RATE_INTERVAL + 1 - now w)) b w)
    as [Hcalls _].
  fold (wait_until_due env b w) in Hcalls.
  destruct (wait_until_due env b w) as [[d naps] w1]. simpl in Hcalls.
  destruct (get_next_message_pending env b w1 Hnext) as (source & _ & ->).
  unfold truthy. rewrite bool_decide_eq_false_2 by apply insert_non_empty.
  simpl. unfold producer_produce. simpl. rewrite Hcalls.
  destruct (produce_raises env (produce_calls w)); eauto.
Qed.

(** A visit never ends [Silent]: the stamped row is not empty. *)

Lemma visit_boat_cases (b : BoatSimulationState) (w : World) :
  (has_next_message b = false ∧ visit_boat env b w = (Skipped, b, w)) ∨
  (has_next_message b = true ∧
   ∃ naps row t w',
     visit_boat env b w = (Sent naps row, emitted b t, w') ∨
     visit_boat env b w = (Failed naps row, emitted b t, w')).
Proof.
  destruct (has_next_message b) eqn:Hnext.
  - right. split; [done|].
    destruct (visit_boat_pending b w Hnext) as (naps & row & t & w' & ->).
    exists naps, row, t, w'.
    destruct (produce_raises env (produce_calls w)); eauto.
  - left. split; [done|]. by apply visit_boat_skip.
Qed.

(** A raised [PublishError] is the last thing a walk records. *)

Lemma round_loop_failed_last (bs : list BoatSimulationState) (total : nat)
    (w : World) entries bs' w' res :
  round_loop env bs total w = (entries, bs', w', res) →
  ∀ j id naps message,
    entries !! j = Some (id, Failed naps message) →
    res = Raise PublishError ∧ S j = length entries.
Proof.
  revert total w entries bs' w' res.
  induction bs as [|b rest IH]; intros total w entries bs' w' res; simpl.
  - intros [= <- <- <- <-] j id naps message Hj. by destruct j.
  - destruct (visit_boat env b w) as [[v b1] w1].
    destruct v as [|n0 m0|n0|n0 m0].
    4: { intros [= <- <- <- <-] [|j] id naps message Hj; [done|by destruct j]. }
    all: destruct (round_loop env rest _ w1) as [[[es rest'] w2] r] eqn:Hrl.
    all: intros [= <- <- <- <-] [|j] id naps message Hj; simpl in Hj.
    all: try congruence.
    all: destruct (IH _ _ _ _ _ _ Hrl j id naps message Hj) as [-> Hlen].
    all: simpl; by rewrite Hlen.
Qed.

Lemma rounds_loop_failed_last (k : nat) (bs : list BoatSimulationState)
    (total : nat) (w : World) sched bs' w' res :
  rounds_loop env k bs total w = (sched, bs', w', res) →
  ∀ r entries j id naps message,
    sched !! r = Some entries →
    entries !! j = Some (id, Failed naps message) →
    res = Raise PublishError ∧ S r = length sched ∧ S j = length entries.
Proof.
  revert bs total w sched bs' w' res.
  induction k as [|k IH]; intros bs total w sched bs' w' res; simpl.
  - intros [= <- <- <- <-] r entries j id naps message Hr. by destruct r.
  - destruct (round_loop env bs total w) as [[[es bs1] w1] r1] eqn:Hround.
    destruct r1 as [total1|e].
    + destruct (rounds_loop env k bs1 total1 w1)
        as [[[later bs2] w2] r2] eqn:Hlater.
      intros [= <- <- <- <-] [|r] entries j id naps message Hr Hj;
        simpl in Hr.
      * injection Hr as <-.
        by destruct (round_loop_failed_last _ _ _ _ _ _ _ Hround _ _ _ _ Hj).
      * destruct (IH _ _ _ _ _ _ _ Hlater _ _ _ _ _ _ Hr Hj)
          as (-> & Hlen & <-).
        simpl. by rewrite Hlen.
    + intros [= <- <- <- <-] [|r] entries j id naps message Hr Hj;
        simpl in Hr; [|by destruct r].
      injection Hr as <-.
      by destruct (round_loop_failed_last _ _ _ _ _ _ _ Hround _ _ _ _ Hj)
        as [[= ->] <-].
Qed.

(** What a walk adds to [total_messages_sent] it adds to the counters of
    the boats. *)

Lemma sent_total_cons (b : BoatSimulationState)
    (bs : list BoatSimulationState) :
  sent_total (b :: bs) = (sent_count b + sent_total bs)%nat.
Proof. reflexivity. Qed.

Lemma round_loop_conserves (bs : list BoatSimulationState) (total : nat)
    (w : World) entries bs' w' total' :
  round_loop env bs total w = (entries, bs', w', Ok total') →
  (total' + sent_total bs = total + sent_total bs')%nat.
Proof.
  revert total w entries bs' w' total'.
  induction bs as [|b rest IH]; intros total w entries bs' w' total'; simpl.
  - by intros [= <- <- <- <-].
  - destruct (visit_boat_cases b w)
      as [[_ ->]|[_ (naps & row & t & w1 & [-> | ->])]]; [| |done].
    + destruct (round_loop env rest total w) as [[[es rest'] w2] r] eqn:Hrl.
      intros [= <- <- <- ->]. apply IH in Hrl.
      rewrite !sent_total_cons. simpl. lia.
    + destruct (round_loop env rest (S total) w1)
        as [[[es rest'] w2] r] eqn:Hrl.
      intros [= <- <- <- ->]. apply IH in Hrl.
      rewrite !sent_total_cons. simpl. lia.
Qed.

Lemma rounds_loop_conserves (k : nat) (bs : list BoatSimulationState)
    (total : nat) (w : World) sched bs' w' total' :
  rounds_loop env k bs total w = (sched, bs', w', Ok total') →
  (total' + sent_total bs = total + sent_total bs')%nat.
Proof.
  revert bs total w sched bs' w' total'.
  induction k as [|k IH]; intros bs total w sched bs' w' total'; simpl.
  - by intros [= <- <- <- <-].
  - destruct (round_loop env bs total w) as [[[es bs1] w1] r1] eqn:Hround.
    destruct r1 as [total1|e]; [|done].
    destruct (rounds_loop env k bs1 total1 w1)
      as [[[later bs2] w2] r2] eqn:Hlater.
    intros [= <- <- <- ->].
    apply round_loop_conserves in Hround. apply IH in Hlater. lia.
Qed.

(** With a producer that never raises, every walk runs to its end. *)

Lemma round_loop_reliable (bs : list BoatSimulationState) (total : nat)
    (w : World) :
  reliable env → ∃ total', (round_loop env bs total w).2 = Ok total'.
Proof.
  intros Hrel. revert total w.
  induction bs as [|b rest IH]; intros total w; simpl; [by eexists|].
  destruct (has_next_message b) eqn:Hnext.
  - destruct (visit_boat_pending b w Hnext) as (naps & row & t & w1 & ->).
    rewrite Hrel.
    destruct (IH (S total) w1) as [total' Hok].
    destruct (round_loop env rest (S total) w1) as [[[es rest'] w2] r].
    by exists total'.
  - rewrite visit_boat_skip by done.
    destruct (IH total w) as [total' Hok].
    destruct (round_loop env rest total w) as [[[es rest'] w2] r].
    by exists total'.
Qed.

Lemma rounds_loop_reliable (k : nat) (bs : list BoatSimulationState)
    (total : nat) (w : World) :
  reliable env → ∃ total', (rounds_loop env k bs total w).2 = Ok total'.
Proof.
  intros Hrel. revert bs total w.
  induction k as [|k IH]; intros bs total w; simpl; [by eexists|].
  destruct (round_loop_reliable bs total w Hrel) as [total1 Hok].
  destruct (round_loop env bs total w) as [[[es bs1] w1] r1].
  simpl in Hok. subst r1.
  destruct (IH bs1 total1 w1) as [total' Hok'].
  destruct (rounds_loop env k bs1 total1 w1) as [[[later bs2] w2] r2].
  by exists total'.
Qed.

(** Round [r] on boats that have been through [r] rounds. *)

Lemma progress_start (b : BoatSimulationState) :
  constructed b → progress 0 b b.
Proof.
  intros (files & id & path & s & e & topic & Hinit).
  destruct (init_data_lines _ _ _ _ _ _ _ Hinit)
    as (reader & _ & _ & Hidx & Hsent & Hflag).
  unfold progress. rewrite Hidx, Hsent, Hflag.
  repeat split; try done.
  by destruct (data_lines b).
Qed.

Lemma progress_has_next (r : nat) (b0 b : BoatSimulationState) :
  progress r b0 b →
  has_next_message b = (r <? length (data_lines b0))%nat.
Proof.
  intros (Hrows & _ & Hidx & _ & Hflag).
  unfold has_next_message. rewrite Hidx, Hflag, Hrows.
  destruct (Nat.ltb_spec r (length (data_lines b0))).
  - rewrite Nat.min_l by lia.
    rewrite (proj2 (Nat.ltb_lt _ _)) by done.
    rewrite (proj2 (Nat.leb_gt _ _)) by done.
    by rewrite andb_false_r.
  - rewrite Nat.min_r by lia. by rewrite Nat.ltb_irrefl.
Qed.

Lemma progress_emitted (r : nat) (b0 b : BoatSimulationState) (t : Z) :
  progress r b0 b → (r < length (data_lines b0))%nat →
  progress (S r) b0 (emitted b t).
Proof.
  intros (Hrows & Hid & Hidx & Hsent & Hflag) Hlt.
  unfold progress. cbn -[Nat.min Nat.leb Nat.eqb].
  rewrite Hrows, Hidx, Hsent, Hflag.
  rewrite (Nat.min_l r) by lia.
  repeat split; try done; try lia.
  destruct (Nat.eqb_spec (length (data_lines b0)) 0); [lia|].
  destruct (Nat.leb_spec (length (data_lines b0)) r); [lia|].
  by destruct (Nat.leb_spec (length (data_lines b0)) (S r)).
Qed.

Lemma progress_idle (r : nat) (b0 b : BoatSimulationState) :
  progress r b0 b → (length (data_lines b0) ≤ r)%nat → progress (S r) b0 b.
Proof.
  intros (Hrows & Hid & Hidx & Hsent & Hflag) Hle.
  unfold progress. rewrite Hidx, Hsent, Hflag.
  repeat split; try done; try lia.
  destruct (Nat.leb_spec (length (data_lines b0)) r); [|lia].
  destruct (Nat.leb_spec (length (data_lines b0)) (S r)); [done|lia].
Qed.

Lemma round_loop_progress (r : nat) (bs0 bs : list BoatSimulationState)
    (total : nat) (w : World) entries bs' w' total' :
  Forall2 (progress r) bs0 bs →
  round_loop env bs total w = (entries, bs', w', Ok total') →
  Forall2 (progress (S r)) bs0 bs' ∧ Forall2 (visited r) bs0 entries.
Proof.
  intros Hall. revert total w entries bs' w' total'.
  induction Hall as [|b0 b rest0 rest Hb Hrest IH];
    intros total w entries bs' w' total'; simpl.
  - by intros [= <- <- <- <-].
  - pose proof (progress_has_next _ _ _ Hb) as Hnext.
    destruct Hb as (Hrows & Hid & Hb').
    destruct (visit_boat_cases b w)
      as [[Hno ->]|[Hyes (naps & row & t & w1 & [-> | ->])]]; [| |done].
    + destruct (round_loop env rest total w) as [[[es rest'] w2] res] eqn:Hrl.
      intros [= <- <- <- ->]. apply IH in Hrl as [H1 H2].
      rewrite Hno in Hnext. symmetry in Hnext.
      split; constructor; try done.
      * apply progress_idle; [done|]. by apply Nat.ltb_ge.
      * unfold visited. by rewrite Hnext.
    + destruct (round_loop env rest (S total) w1)
        as [[[es rest'] w2] res] eqn:Hrl.
      intros [= <- <- <- ->]. apply IH in Hrl as [H1 H2].
      rewrite Hyes in Hnext. symmetry in Hnext.
      split; constructor; try done.
      * apply progress_emitted; [done|]. by apply Nat.ltb_lt.
      * unfold visited. rewrite Hnext. eauto.
Qed.

Lemma rounds_loop_progress (k r : nat) (bs0 bs : list BoatSimulationState)
    (total : nat) (w : World) sched bs' w' total' :
  Forall2 (progress r) bs0 bs →
  rounds_loop env k bs total w = (sched, bs', w', Ok total') →
  length sched = k ∧
  Forall2 (progress (r + k)) bs0 bs' ∧
  ∀ i entries, sched !! i = Some entries →
    Forall2 (visited (r + i)) bs0 entries.
Proof.
  revert r bs total w sched bs' w' total'.
  induction k as [|k IH]; intros r bs total w sched bs' w' total' Hall; simpl.
  - intros [= <- <- <- <-]. rewrite Nat.add_0_r.
    split; [done|]. split; [done|]. intros i entries Hi. by destruct i.
  - destruct (round_loop env bs total w) as [[[es bs1] w1] r1] eqn:Hround.
    destruct r1 as [total1|e]; [|done].
    destruct (rounds_loop env k bs1 total1 w1)
      as [[[later bs2] w2] r2] eqn:Hlater.
    intros [= <- <- <- ->].
    destruct (round_loop_progress _ _ _ _ _ _ _ _ _ Hall Hround) as [H1 H2].
    destruct (IH _ _ _ _ _ _ _ _ H1 Hlater) as (Hlen & Hfin & Hvis).
    split; [simpl; by rewrite Hlen|].
    split; [by replace (r + S k)%nat with (S r + k)%nat by lia|].
    intros [|i] entries Hi; simpl in Hi.
    + injection Hi as <-. by rewrite Nat.add_0_r.
    + replace (r + S i)%nat with (S r + i)%nat by lia. by apply Hvis.
Qed.

Lemma max_rounds_max_list (bs : list BoatSimulationState) :
  max_rounds bs = max_list_with (λ b, length (data_lines b)) bs.
Proof.
  unfold max_rounds.
  enough (∀ m, foldl (λ m boat, Nat.max m (length (data_lines boat))) m bs
               = Nat.max m (max_list_with (λ b, length (data_lines b)) bs))
    as H by (rewrite H; lia).
  induction bs as [|b rest IH]; intros m; [simpl; lia|].
  cbn [foldl max_list_with]. rewrite IH. lia.
Qed.

Lemma max_rounds_bounds (bs : list BoatSimulationState)
    (b : BoatSimulationState) :
  b ∈ bs → (length (data_lines b) ≤ max_rounds bs)%nat.
Proof.
  rewrite max_rounds_max_list.
  induction 1; cbn [max_list_with]; lia.
Qed.

Lemma worker_unfold (bs : list BoatSimulationState) (w : World) :
  worker_thread_simulation env bs w =
    let '(sched, boats, w', r) :=
      rounds_loop env (max_rounds bs) bs O w in
    {| schedule := sched; boats_after := boats; world_after := w';
       returned := r |}.
Proof. by destruct bs. Qed.

Lemma constructed_progress (bs : list BoatSimulationState) :
  Forall constructed bs → Forall2 (progress 0) bs bs.
Proof.
  intros Hall. apply Forall_Forall2_diag.
  eapply Forall_impl; [exact Hall|]. apply progress_start.
Qed.

Lemma visited_ids (r : nat) (bs : list BoatSimulationState)
    (entries : list (string * visit)) :
  Forall2 (visited r) bs entries → entries.*1 = unique_boat_id <$> bs.
Proof.
  induction 1 as [|b entry bs entries [Hid _] _ IH]; [done|].
  rewrite !fmap_cons. by rewrite Hid, IH.
Qed.

(** A skipped visit reads no clock, sleeps not at all and produces
    nothing: boat and world are as before. *)

Lemma visit_boat_skipped_is_noop (b : BoatSimulationState) (w : World) b' w' :
  visit_boat env b w = (Skipped, b', w') →
  has_next_message b = false ∧ b' = b ∧ w' = w.
Proof.
  destruct (visit_boat_cases b w)
    as [[Hno ->]|[_ (naps & row & t & w1 & [-> | ->])]]; [|done..].
  by intros [= <- <-].
Qed.

(** C5 (as amended): when no call of [producer.produce] raises, a worker
    runs exactly [max(len(rows))] rounds over its batch and returns; in
    every round it visits every boat of the batch once, in claim order;
    the boat at position [j] emits in round [r] when [r] is below its
    number of rows and is skipped in every later round, and a skipped
    visit neither waits at the rate gate nor emits. *)
Theorem round_scheduler_lock_step (B : list BoatSimulationState) (w : World) :
  reliable env →
  Forall constructed B →
  let o := worker_thread_simulation env B w in
  (∃ n, returned o = Ok n) ∧
  length (schedule o) = max_list_with (λ b, length (data_lines b)) B ∧
  (∀ r entries, schedule o !! r = Some entries →
     entries.*1 = unique_boat_id <$> B ∧
     ∀ j b, B !! j = Some b →
       ∃ v, entries !! j = Some (unique_boat_id b, v) ∧
         if (r <? length (data_lines b))%nat
         then ∃ naps message, v = Sent naps message
         else v = Skipped) ∧
  (∀ b w1 b' w', visit_boat env b w1 = (Skipped, b', w') →
     b' = b ∧ w' = w1).
Proof.
  intros Hrel Hall o. subst o. rewrite worker_unfold.
  destruct (rounds_loop_reliable (max_rounds B) B O w Hrel) as [n Hok].
  destruct (rounds_loop env (max_rounds B) B O w)
    as [[[sched boats] w'] res] eqn:Hloop.
  simpl in Hok. subst res. simpl.
  destruct (rounds_loop_progress _ 0 _ _ _ _ _ _ _ _
              (constructed_progress B Hall) Hloop) as (Hlen & _ & Hvis).
  split; [by exists n|].
  split; [by rewrite Hlen, max_rounds_max_list|].
  split.
  - intros r entries Hr. specialize (Hvis r entries Hr). simpl in Hvis.
    split; [by apply (visited_ids r)|].
    intros j b Hj.
    destruct (Forall2_lookup_l _ _ _ _ _ Hvis Hj) as ([id v] & Hentry & Hid & Hv).
    simpl in Hid, Hv. subst id. by exists v.
  - intros b w1 b' w1' Hskip.
    by destruct (visit_boat_skipped_is_noop _ _ _ _ Hskip) as (_ & -> & ->).
Qed.

(** C2 (as amended): a [producer.produce] that raises ends the worker at
    that record: the exception leaves [worker_thread_simulation], the
    failed visit is the last one of the last round entered, and the
    orchestrator, collecting the worker's result, prints the exception,
    adds nothing to the total and goes on with the other workers. *)
Theorem publish_failure_ends_the_worker (B : list BoatSimulationState)
    (w : World) (r j : nat) (entries : list (string * visit)) (id : string)
    (naps : nat) (message : Row) :
  let o := worker_thread_simulation env B w in
  schedule o !! r = Some entries →
  entries !! j = Some (id, Failed naps message) →
  returned o = Raise PublishError ∧
  S r = length (schedule o) ∧
  S j = length entries ∧
  ∀ later total printed,
    collect_results (returned o :: later) total printed =
    collect_results later total (printed ++ [PublishError]).
Proof.
  intros o. subst o. rewrite worker_unfold.
  destruct (rounds_loop env (max_rounds B) B O w)
    as [[[sched boats] w'] res] eqn:Hloop.
  simpl. intros Hr Hj.
  destruct (rounds_loop_failed_last _ _ _ _ _ _ _ _ Hloop _ _ _ _ _ _ Hr Hj)
    as (-> & Hlen & Hlast).
  by repeat split.
Qed.

(** C9 (as amended): a boat whose worker runs to its end without an
    exception has emitted as many records as rows were loaded for it;
    for a window [0 <= start_row <= end_row] that is
    [min(end_row - start_row, max(0, rows_in_file - start_row))], and it
    is the window size [end_row - start_row] when the dataset holds at
    least [end_row] rows. *)
Theorem emitted_count_is_rows_loaded (B : list BoatSimulationState)
    (w : World) (j : nat) (files : datasets) (id : Z) (path : string)
    (s e : Z) (topic : string) (b : BoatSimulationState) :
  Forall constructed B →
  B !! j = Some b →
  BoatSimulationState_init files id path s e topic = Ok b →
  (∃ n, returned (worker_thread_simulation env B w) = Ok n) →
  ∃ b' reader,
    boats_after (worker_thread_simulation env B w) !! j = Some b' ∧
    files !! path = Some reader ∧
    has_next_message b' = false ∧
    sent_count b' = length (load_data reader s e) ∧
    (0 ≤ s ≤ e →
       Z.of_nat (sent_count b') =
         Z.min (e - s) (Z.max 0 (Z.of_nat (length reader) - s))) ∧
    (0 ≤ s ≤ e → e ≤ Z.of_nat (length reader) →
       Z.of_nat (sent_count b') = e - s).
Proof.
  intros Hall Hj Hinit [n Hok]. revert Hok. rewrite worker_unfold.
  destruct (rounds_loop env (max_rounds B) B O w)
    as [[[sched boats] w'] res] eqn:Hloop.
  simpl. intros ->.
  destruct (rounds_loop_progress _ 0 _ _ _ _ _ _ _ _
              (constructed_progress B Hall) Hloop) as (_ & Hfin & _).
  destruct (Forall2_lookup_l _ _ _ _ _ Hfin Hj) as (b' & Hb' & Hprog).
  destruct (init_data_lines _ _ _ _ _ _ _ Hinit)
    as (reader & Hfile & Hrows & _ & Hsent & _).
  assert (length (data_lines b) ≤ max_rounds B)%nat as Hmax.
  { apply max_rounds_bounds. by eapply list_elem_of_lookup_2. }
  assert (sent_count b' = length (load_data reader s e)) as Hcount.
  { destruct Hprog as (_ & _ & _ & -> & _). rewrite Hsent, <- Hrows. lia. }
  exists b', reader.
  split; [done|]. split; [done|]. split.
  { rewrite (progress_has_next _ _ _ Hprog). apply Nat.ltb_ge. simpl. lia. }
  split; [done|]. rewrite Hcount. split.
  - intros Hse. by apply load_data_length.
  - intros Hse Hfull. rewrite load_data_length by done. lia.
Qed.

End WorkerFacts.

(** ** The claim phase *)

Section ClaimFacts.

Context {A : Type}.
Variables (C W : nat) (boats : list A).

Lemma turns_snoc_same (i : nat) (order : list nat) :
  turns i (order ++ [i]) = S (turns i order).
Proof.
  unfold turns. rewrite filter_app, length_app.
  rewrite filter_cons_True by done. simpl. lia.
Qed.

Lemma turns_snoc_other (i k : nat) (order : list nat) :
  k ≠ i → turns i (order ++ [k]) = turns i order.
Proof.
  intros Hne. unfold turns. rewrite filter_app, length_app.
  rewrite filter_cons_False by done. simpl. lia.
Qed.

Lemma join_insert (ws : list (Claimer A)) (i : nat) (c c' : Claimer A)
    (extra : list A) :
  ws !! i = Some c →
  local_boats c' = local_boats c ++ extra →
  mjoin (local_boats <$> <[i := c']> ws)
    ≡ₚ extra ++ mjoin (local_boats <$> ws).
Proof.
  intros Hi Hlocal.
  rewrite insert_take_drop by (by eapply lookup_lt_Some).
  rewrite <- (take_drop_middle ws i c Hi) at 3.
  rewrite !fmap_app, !fmap_cons, !join_app. simpl. rewrite Hlocal.
  solve_Permutation.
Qed.

Lemma join_replicate_empty (n : nat) (c : Claimer A) :
  local_boats c = [] → mjoin (local_boats <$> replicate n c) = [].
Proof.
  intros Hc. induction n as [|n IH]; [done|].
  cbn [replicate]. rewrite fmap_cons. simpl. by rewrite Hc, IH.
Qed.

Lemma start_pool_invariant : claim_invariant C W boats [] (start_pool boats W).
Proof.
  split; simpl.
  - apply length_replicate.
  - unfold claimed. simpl. by rewrite join_replicate_empty.
  - apply Forall_replicate. simpl. lia.
  - by apply Forall_replicate.
  - intros i c [-> _]%lookup_replicate _. done.
Qed.

Lemma claim_step_invariant (order : list nat) (p : Pool A) (i : nat) :
  claim_invariant C W boats order p →
  claim_invariant C W boats (order ++ [i]) (claim_step C p i).
Proof.
  intros [Hw Hperm Hcap Hleft Hturns].
  assert (∀ i' c', i' ≠ i → workers p !! i' = Some c' → claiming c' = true →
            length (local_boats c') = turns i' (order ++ [i])) as Hothers.
  { intros i' c' Hne Hi' Hc'. rewrite turns_snoc_other by done. eauto. }
  unfold claim_step.
  destruct (workers p !! i) as [c|] eqn:Hi.
  2: { split; try done. intros i' c' Hi' Hc'.
       apply Hothers; try done. congruence. }
  destruct (claiming c) eqn:Hclaiming; simpl.
  2: { split; try done. intros i' c' Hi' Hc'.
       apply Hothers; try done. congruence. }
  pose proof (Forall_lookup_1 _ _ _ _ Hcap Hi) as Hc_cap. simpl in Hc_cap.
  destruct (Nat.ltb_spec (length (local_boats c)) C) as [Hroom|Hfull].
  - destruct (boat_queue p) as [|x rest] eqn:Hq.
    + (* queue.Empty *)
      split; simpl.
      * by rewrite length_insert.
      * unfold claimed in *. simpl.
        rewrite (join_insert _ _ c _ []) by (simpl; by rewrite ?app_nil_r).
        done.
      * by apply Forall_insert.
      * apply Forall_insert; [|by right].
        eapply Forall_impl; [exact Hleft|]. simpl. tauto.
      * intros i' c' Hi' Hc'.
        destruct (decide (i' = i)) as [->|Hne].
        -- rewrite list_lookup_insert_eq in Hi' by (by eapply lookup_lt_Some).
           injection Hi' as <-. done.
        -- rewrite list_lookup_insert_ne in Hi' by done. by apply Hothers.
    + (* a boat is taken *)
      split; simpl.
      * by rewrite length_insert.
      * unfold claimed in *. simpl. simpl in Hperm.
        rewrite (join_insert _ _ c _ [x]) by done.
        rewrite <- Hperm. solve_Permutation.
      * apply Forall_insert; [done|]. simpl. rewrite length_app. simpl. lia.
      * apply Forall_insert; [|done].
        eapply Forall_impl; [exact Hleft|]. simpl.
        intros c' Hc' Hleft'. destruct (Hc' Hleft'); [by left|done].
      * intros i' c' Hi' Hc'.
        destruct (decide (i' = i)) as [->|Hne].
        -- rewrite list_lookup_insert_eq in Hi' by (by eapply lookup_lt_Some).
           injection Hi' as <-. simpl. rewrite length_app, turns_snoc_same.
           simpl. rewrite (Hturns i c) by done. lia.
        -- rewrite list_lookup_insert_ne in Hi' by done. by apply Hothers.
  - (* the batch is full *)
    split; simpl.
    + by rewrite length_insert.
    + unfold claimed in *. simpl.
      rewrite (join_insert _ _ c _ []) by (simpl; by rewrite ?app_nil_r).
      done.
    + by apply Forall_insert.
    + apply Forall_insert; [done|]. simpl. intros _. left. lia.
    + intros i' c' Hi' Hc'.
      destruct (decide (i' = i)) as [->|Hne].
      * rewrite list_lookup_insert_eq in Hi' by (by eapply lookup_lt_Some).
        injection Hi' as <-. done.
      * rewrite list_lookup_insert_ne in Hi' by done. by apply Hothers.
Qed.

Lemma claim_phase_invariant (order : list nat) :
  claim_invariant C W boats order (claim_phase C order (start_pool boats W)).
Proof.
  induction order as [|i order IH] using rev_ind.
  - apply start_pool_invariant.
  - unfold claim_phase. rewrite foldl_app. simpl.
    by apply claim_step_invariant.
Qed.

Lemma settled_all_left (p : Pool A) :
  settled p = true → Forall (λ c, claiming c = false) (workers p).
Proof.
  unfold settled. induction (workers p) as [|c ws IH]; simpl; [done|].
  intros [Hc Hws]%andb_prop. constructor; [|by apply IH].
  by apply negb_true_iff.
Qed.

Lemma join_length_cap (ws : list (Claimer A)) :
  Forall (λ c, length (local_boats c) ≤ C)%nat ws →
  (length (mjoin (local_boats <$> ws)) ≤ length ws * C)%nat.
Proof.
  induction 1 as [|c ws Hc _ IH]; [done|].
  rewrite fmap_cons. simpl. rewrite length_app. lia.
Qed.

Lemma join_length_full (ws : list (Claimer A)) :
  Forall (λ c, length (local_boats c) = C) ws →
  length (mjoin (local_boats <$> ws)) = (length ws * C)%nat.
Proof.
  induction 1 as [|c ws Hc _ IH]; [done|].
  rewrite fmap_cons. simpl. rewrite length_app. lia.
Qed.

Lemma holds_claimed (p : Pool A) (i : nat) (x : A) :
  holds p i x → x ∈ claimed p.
Proof.
  intros (c & Hi & Hx). unfold claimed. apply list_elem_of_join.
  exists (local_boats c). split; [done|].
  apply list_elem_of_fmap. exists c. split; [done|].
  by eapply list_elem_of_lookup_2.
Qed.

Lemma claimed_holds (p : Pool A) (x : A) :
  x ∈ claimed p → ∃ i, holds p i x.
Proof.
  unfold claimed. intros (l & Hx & Hl)%list_elem_of_join.
  apply list_elem_of_fmap in Hl as (c & -> & Hc).
  apply list_elem_of_lookup_1 in Hc as [i Hi].
  exists i, c. done.
Qed.

Lemma join_NoDup_index (ls : list (list A)) (i i' : nat) (l l' : list A)
    (x : A) :
  NoDup (mjoin ls) → ls !! i = Some l → ls !! i' = Some l' →
  x ∈ l → x ∈ l' → i = i'.
Proof.
  revert i i'. induction ls as [|l0 ls IH]; intros i i'; [done|].
  simpl. intros (Hl0 & Hsep & Hrest)%NoDup_app Hi Hi' Hx Hx'.
  assert (∀ k lk, ls !! k = Some lk → x ∈ lk → x ∈ mjoin ls) as Hin.
  { intros k lk Hk Hxk. apply list_elem_of_join. exists lk.
    split; [done|]. by eapply list_elem_of_lookup_2. }
  destruct i as [|i], i' as [|i']; simpl in Hi, Hi'.
  - done.
  - injection Hi as <-. exfalso. eapply Hsep; [exact Hx|]. eauto.
  - injection Hi' as <-. exfalso. eapply Hsep; [exact Hx'|]. eauto.
  - f_equal. by apply IH.
Qed.

Lemma settled_is_final (p : Pool A) (i : nat) :
  settled p = true → claim_step C p i = p.
Proof.
  intros Hsettled%settled_all_left. unfold claim_step.
  destruct (workers p !! i) as [c|] eqn:Hi; [|done].
  by rewrite (Forall_lookup_1 _ _ _ _ Hsettled Hi).
Qed.

(** C4: with [N] boats in the queue and [W] workers of capacity [C]
    taking boats under the queue's lock, in whatever order their
    iterations interleave: no boat is ever held by two workers, and a
    boat held is no longer in the queue; once every worker has had
    [C + 1] turns every worker has left its claim loop; and when all
    have left, nothing is taken any more, and either [N <= W*C], the
    queue is empty and every boat is held by a worker, or [N > W*C],
    the workers hold [W*C] boats and exactly the [N - W*C] boats still
    in the queue are held by nobody. *)
Theorem claim_phase_partition (order : list nat) :
  NoDup boats →
  let p := claim_phase C order (start_pool boats W) in
  (∀ x i i', holds p i x → holds p i' x → i = i') ∧
  (∀ x i, holds p i x → x ∈ boats ∧ x ∉ boat_queue p) ∧
  ((∀ i, (i < W)%nat → (C < turns i order)%nat) → settled p = true) ∧
  (settled p = true →
     (∀ later, claim_phase C later p = p) ∧
     ((length boats ≤ W * C)%nat →
        boat_queue p = [] ∧ ∀ x, x ∈ boats → ∃ i, holds p i x) ∧
     ((W * C < length boats)%nat →
        length (boat_queue p) = (length boats - W * C)%nat ∧
        length (claimed p) = (W * C)%nat ∧
        ∀ x, x ∈ boat_queue p → x ∈ boats ∧ ∀ i, ¬ holds p i x)).
Proof.
  intros Hnodup p.
  destruct (claim_phase_invariant order) as [Hw Hperm Hcap Hleft Hturns].
  fold p in Hw, Hperm, Hcap, Hleft, Hturns.
  assert (NoDup (claimed p ++ boat_queue p)) as Hnd by (by rewrite Hperm).
  apply NoDup_app in Hnd as (Hnd_claimed & Hsep & Hnd_queue).
  assert (length (claimed p) + length (boat_queue p) = length boats)%nat
    as Hsize by (by rewrite <- length_app, Hperm).
  split.
  { intros x i i' (c & Hi & Hx) (c' & Hi' & Hx').
    eapply (join_NoDup_index (local_boats <$> workers p));
      [exact Hnd_claimed| | |exact Hx|exact Hx'];
      rewrite list_lookup_fmap; [by rewrite Hi|by rewrite Hi']. }
  split.
  { intros x i Hheld. apply holds_claimed in Hheld. split; [|by apply Hsep].
    rewrite <- Hperm. apply elem_of_app. by left. }
  split.
  { intros Hfair. unfold settled. apply forallb_forall.
    intros c Hc%list_elem_of_In%list_elem_of_lookup_1. destruct Hc as [i Hi].
    destruct (claiming c) eqn:Hclaiming; [|done]. exfalso.
    pose proof (Hturns i c Hi Hclaiming) as Hlen.
    pose proof (Forall_lookup_1 _ _ _ _ Hcap Hi) as Hc_cap. simpl in Hc_cap.
    apply lookup_lt_Some in Hi. specialize (Hfair i). lia. }
  intros Hsettled. split.
  { intros later. unfold claim_phase.
    induction later as [|i later IH]; [done|].
    simpl. by rewrite settled_is_final. }
  apply settled_all_left in Hsettled.
  assert (boat_queue p ≠ [] → length (claimed p) = (W * C)%nat) as Hfull.
  { intros Hq. unfold claimed. rewrite <- Hw. apply join_length_full.
    apply Forall_lookup. intros i c Hi.
    pose proof (Forall_lookup_1 _ _ _ _ Hsettled Hi) as Hc. simpl in Hc.
    by destruct (Forall_lookup_1 _ _ _ _ Hleft Hi Hc). }
  pose proof (join_length_cap _ Hcap) as Hbound.
  fold (claimed p) in Hbound. rewrite Hw in Hbound.
  split.
  - intros Hfit.
    assert (boat_queue p = []) as Hq.
    { destruct (boat_queue p) as [|x rest] eqn:Hq; [done|].
      rewrite Hfull in Hsize by done. simpl in Hsize. lia. }
    split; [done|]. intros x Hx. apply claimed_holds.
    rewrite <- Hperm, Hq, app_nil_r in Hx. done.
  - intros Hover.
    assert (boat_queue p ≠ []) as Hq.
    { intros Hq. rewrite Hq in Hsize. simpl in Hsize. lia. }
    specialize (Hfull Hq). split; [lia|]. split; [done|].
    intros x Hx. split.
    + rewrite <- Hperm. apply elem_of_app. by right.
    + intros i Hheld%holds_claimed. by apply (Hsep x).
Qed.

End ClaimFacts.

(** ** The aggregator *)

Lemma collect_results_all_ok (outcomes : list Outcome) (total : nat)
    (printed : list exn) :
  Forall (λ o, ∃ n, returned o = Ok n ∧ n = sent_total (boats_after o))
    outcomes →
  collect_results (returned <$> outcomes) total printed =
    ((total + sum_list_with (λ o, sent_total (boats_after o)) outcomes)%nat,
     printed).
Proof.
  intros Hall. revert total.
  induction Hall as [|o os (n & Hn & Hsum) _ IH]; intros total.
  - simpl. by rewrite Nat.add_0_r.
  - rewrite fmap_cons. cbn [collect_results sum_list_with].
    rewrite Hn, IH, <- Hsum. f_equal. lia.
Qed.

Lemma constructed_sent_total (bs : list BoatSimulationState) :
  Forall constructed bs → sent_total bs = O.
Proof.
  induction 1 as [|b bs (files & id & path & s & e & topic & Hinit) _ IH];
    [done|].
  rewrite sent_total_cons, IH.
  by destruct (init_data_lines _ _ _ _ _ _ _ Hinit) as (_ & _ & _ & _ & -> & _).
Qed.

Lemma worker_returns_sent_total (env : Env) (bs : list BoatSimulationState)
    (w : World) (n : nat) :
  Forall constructed bs →
  returned (worker_thread_simulation env bs w) = Ok n →
  n = sent_total (boats_after (worker_thread_simulation env bs w)).
Proof.
  intros Hall. rewrite worker_unfold.
  destruct (rounds_loop env (max_rounds bs) bs O w)
    as [[[sched boats'] w'] res] eqn:Hloop.
  simpl. intros ->. apply rounds_loop_conserves in Hloop.
  rewrite constructed_sent_total in Hloop by done. lia.
Qed.

(** C8 (as amended): in a run where every worker returns, the total of
    the aggregator is the sum, over the boats of all batches, of the
    boats' own [sent_count]. *)
Theorem total_is_sum_of_sent_counts (tasks : list Task) :
  Forall (λ t, Forall constructed (task_boats t)) tasks →
  Forall (λ t, ∃ n, returned (run_task t) = Ok n) tasks →
  total_messages tasks =
    sum_list_with (λ t, sent_total (boats_after (run_task t))) tasks.
Proof.
  intros Hfresh Hreturn. unfold total_messages.
  rewrite collect_results_all_ok.
  - simpl. clear. induction tasks as [|t ts IH]; [done|].
    rewrite fmap_cons. cbn [sum_list_with]. by rewrite IH.
  - apply Forall_fmap. apply Forall_lookup. intros i t Hi.
    destruct (Forall_lookup_1 _ _ _ _ Hreturn Hi) as [n Hn].
    exists n. split; [done|].
    eapply worker_returns_sent_total; [|exact Hn].
    exact (Forall_lookup_1 _ _ _ _ Hfresh Hi).
Qed.

(** * The claims on concrete runs *)

(** The scenario of the specification: three boats with 5, 3 and 7 rows
    on one worker take 7 rounds and 15 messages, and the boat with 3
    rows is skipped from round 3 on. *)

Example scenario_5_3_7 :
  let o := worker_thread_simulation calm scenario_batch world0 in
  returned o = Ok 15%nat ∧
  length (schedule o) = 7%nat ∧
  sent_count <$> boats_after o = [5; 3; 7]%nat ∧
  completed <$> boats_after o = [true; true; true] ∧
  (λ entries : list (string * visit),
     match entries !! 1%nat with
     | Some (_, Skipped) => true
     | _ => false
     end) <$> schedule o = [false; false; false; true; true; true; true].
Proof. vm_compute. repeat split. Qed.

(** C2, the claim as written fails: the first [produce] raises, the
    worker ends with the exception, its boat keeps two rows it never
    sends, and [produce] is not called again. *)
Lemma publish_failure_aborts_worker :
  let o := worker_thread_simulation (failing_at 0) (boat_of 1 ITA 0 3) world0 in
  returned o = Raise PublishError ∧
  length (schedule o) = 1%nat ∧
  max_rounds (boat_of 1 ITA 0 3) = 3%nat ∧
  has_next_message <$> boats_after o = [true] ∧
  current_index <$> boats_after o = [1%nat] ∧
  produce_calls (world_after o) = 1%nat ∧
  delivered (world_after o) = [].
Proof. vm_compute. repeat split. Qed.

(** C3, the claim as written fails: a boat built on an empty dataset has
    its cursor at the end of its (empty) rows and its flag false, before
    and after any call. *)
Lemma empty_boat_is_never_completed :
  ∃ b, BoatSimulationState_init sample_files 1 SUI START_ROW END_ROW
         "boat_data" = Ok b ∧
    let b' := (run_operations calm [OpHasNext; OpCanSend; OpGetNext]
                 (b, world0)).1 in
    current_index b' = length (data_lines b') ∧
    completed b' = false ∧
    ¬ (completed b' = true ↔ current_index b' = length (data_lines b')).
Proof.
  eexists. split; [reflexivity|].
  vm_compute. split; [reflexivity|]. split; [reflexivity|].
  intros [_ H]. by specialize (H eq_refl).
Qed.

(** C5, the claim as written fails: with a batch of two boats whose
    longest has 2 rows, a [produce] that raises in the first round ends
    the scheduler there, after one round entered instead of two. *)
Lemma failed_publish_cuts_the_rounds :
  let B := boat_of 1 ITA 0 2 ++ boat_of 2 ITA 2 3 in
  let o := worker_thread_simulation (failing_at 1) B world0 in
  B ≠ [] ∧
  max_list_with (λ b, length (data_lines b)) B = 2%nat ∧
  length (schedule o) = 1%nat ∧
  returned o = Raise PublishError ∧
  has_next_message <$> boats_after o = [true; false].
Proof. vm_compute. repeat split. discriminate. Qed.

(** C8, the claim as written fails: a worker that raises after its boat
    counted two emissions adds nothing to the total; the run ends with
    a total of 2 while the boats count 4. *)
Lemma failed_worker_is_not_counted :
  let tasks := [task_of (failing_at 1) (boat_of 1 ITA 0 3);
                task_of calm (boat_of 2 ITA 1 3)] in
  total_messages tasks = 2%nat ∧
  sum_list_with (λ t, sent_total (boats_after (run_task t))) tasks = 4%nat ∧
  returned <$> (run_task <$> tasks) = [Raise PublishError; Ok 2%nat].
Proof. vm_compute. repeat split. Qed.

(** C9, the claim as written fails: with the default window
    [START_ROW, END_ROW) on a dataset of 3 rows, the boat runs to
    completion having emitted 2 records, not 9999. *)
Lemma short_dataset_emits_fewer :
  let o := worker_thread_simulation calm
             (boat_of 1 ITA START_ROW END_ROW) world0 in
  returned o = Ok 2%nat ∧
  sent_count <$> boats_after o = [2%nat] ∧
  has_next_message <$> boats_after o = [false] ∧
  (λ b, end_row b - start_row b) <$> boats_after o = [9999].
Proof. vm_compute. repeat split. Qed.

(** * The theorems at concrete inputs *)

(** [first_boat] is what the constructor returns. *)
Example first_boat_built :
  BoatSimulationState_init sample_files 1 ITA 0 3 "boat_data" = Ok first_boat.
Proof. vm_compute. reflexivity. Qed.

(** Whatever the constructor returns is a constructed boat. *)
Lemma built_constructed (files : datasets) (id : Z) (path : string)
    (s e : Z) (topic : string) :
  Forall constructed (built (BoatSimulationState_init files id path s e topic)).
Proof.
  destruct (BoatSimulationState_init files id path s e topic) as [b|err] eqn:Hb;
    simpl; [|constructor].
  apply Forall_singleton. by exists files, id, path, s, e, topic.
Qed.

(** C1 for 7 boats and 2 workers, and for one worker with one boat
    more than [double_limit_15]. *)
Lemma calculate_boats_per_thread_floor_witness :
  (1 ≤ 7 ∧ 1 ≤ 2 ∧ 7 / 2 ≤ double_limit_15) ∧
  calculate_boats_per_thread 7 2 = Ok (capacity_floor 7 2) ∧
  (1 ≤ double_limit_15 + 1 ∧ 1 ≤ 1 ∧
   double_limit_15 < (double_limit_15 + 1) / 1) ∧
  calculate_boats_per_thread (double_limit_15 + 1) 1 = Raise OverflowError.
Proof.
  assert (1 ≤ 7) as H1 by lia.
  assert (1 ≤ 2) as H2 by lia.
  assert (7 / 2 ≤ double_limit_15) as H3 by (vm_compute; discriminate).
  assert (1 ≤ double_limit_15 + 1) as H4 by (vm_compute; discriminate).
  assert (1 ≤ 1) as H5 by lia.
  assert (double_limit_15 < (double_limit_15 + 1) / 1) as H6
    by (vm_compute; reflexivity).
  split; [by repeat split|].
  split; [exact (proj1 (calculate_boats_per_thread_floor 7 2 H1 H2) H3)|].
  split; [by repeat split|].
  exact (proj2 (calculate_boats_per_thread_floor (double_limit_15 + 1) 1
                  H4 H5) H6).
Defined.

(** C2 for boat 1 alone, with a producer whose first call raises. *)
Lemma publish_failure_ends_the_worker_witness :
  let o := worker_thread_simulation (failing_at 0) [first_boat] world0 in
  (schedule o !! 0%nat = Some [("BOAT_001", Failed 0 first_message)] ∧
   [("BOAT_001", Failed 0 first_message)] !! 0%nat
     = Some ("BOAT_001", Failed 0 first_message)) ∧
  returned o = Raise PublishError ∧
  1%nat = length (schedule o).
Proof.
  intros o.
  assert (schedule o !! 0%nat = Some [("BOAT_001", Failed 0 first_message)])
    as H1 by (vm_compute; reflexivity).
  assert ([("BOAT_001", Failed 0 first_message)] !! 0%nat
            = Some ("BOAT_001", Failed 0 first_message)) as H2 by reflexivity.
  split; [by split|].
  destruct (publish_failure_ends_the_worker (failing_at 0) [first_boat] world0
              0 0 _ _ _ _ H1 H2) as (Hraise & Hlast & _).
  by split.
Defined.

(** C3 for boat 1 through five calls. *)
Lemma completed_iff_cursor_at_end_witness :
  (BoatSimulationState_init sample_files 1 ITA 0 3 "boat_data" = Ok first_boat ∧
   data_lines first_boat ≠ []) ∧
  let b' := (run_operations calm
               [OpGetNext; OpCanSend; OpGetNext; OpHasNext; OpGetNext]
               (first_boat, world0)).1 in
  completed b' = true ↔ current_index b' = length (data_lines b').
Proof.
  assert (BoatSimulationState_init sample_files 1 ITA 0 3 "boat_data"
            = Ok first_boat) as H1 by (vm_compute; reflexivity).
  assert (data_lines first_boat ≠ []) as H2 by (simpl; discriminate).
  split; [by split|].
  exact (completed_iff_cursor_at_end calm sample_files 1 ITA 0 3 "boat_data"
           first_boat _ world0 H1 H2).
Defined.

(** C4 for 7 boats, 3 workers of capacity 2 and one interleaving. *)
Lemma claim_phase_partition_witness :
  let boats := [1; 2; 3; 4; 5; 6; 7]%nat in
  let order := [0; 1; 0; 1; 0; 1; 2; 2; 2; 2]%nat in
  let p := claim_phase 2 order (start_pool boats 3) in
  NoDup boats ∧
  settled p = true ∧
  length (boat_queue p) = (length boats - 3 * 2)%nat ∧
  ∀ x i i', holds p i x → holds p i' x → i = i'.
Proof.
  intros boats order p.
  assert (NoDup boats) as H by (apply (bool_decide_unpack _); vm_compute; exact I).
  destruct (claim_phase_partition 2 3 boats order H)
    as (Hunique & _ & _ & Hsettled).
  assert (settled p = true) as Hp by (vm_compute; reflexivity).
  destruct (Hsettled Hp) as (_ & _ & Hover).
  assert (3 * 2 < length boats)%nat as Hlt by (simpl; lia).
  destruct (Hover Hlt) as (Hqueue & _ & _).
  by repeat split.
Defined.

(** C5 on the scenario of the specification. *)
Lemma round_scheduler_lock_step_witness :
  let o := worker_thread_simulation calm scenario_batch world0 in
  (reliable calm ∧ Forall constructed scenario_batch) ∧
  (∃ n, returned o = Ok n) ∧
  length (schedule o)
    = max_list_with (λ b, length (data_lines b)) scenario_batch.
Proof.
  intros o.
  assert (reliable calm) as H1 by (intros k; reflexivity).
  assert (Forall constructed scenario_batch) as H2.
  { unfold scenario_batch, boat_of.
    repeat apply Forall_app_2; apply built_constructed. }
  split; [by split|].
  destruct (round_scheduler_lock_step calm scenario_batch world0 H1 H2)
    as (Hret & Hlen & _).
  by split.
Defined.

(** C6 for the first emission of boat 1. *)
Lemma get_next_message_stamps_and_advances_witness :
  has_next_message first_boat = true ∧
  ∃ row b' w',
    get_next_message calm first_boat world0 = (Some row, b', w') ∧
    row !! "boat" = Some "BOAT_001" ∧
    row !! "time" = Some "2023-11-14T22:13:20.123Z" ∧
    row !! "speed" = Some "31.2" ∧
    current_index b' = 1%nat.
Proof.
  assert (has_next_message first_boat = true) as H by reflexivity.
  split; [exact H|].
  destruct (get_next_message_stamps_and_advances calm first_boat world0 H)
    as (source & row & b' & w' & Hget & Hsrc & Hboat & Htime & _ & Hother
        & _ & _ & Hidx & _).
  exists row, b', w'.
  split; [exact Hget|]. split; [exact Hboat|].
  split; [rewrite Htime; vm_compute; reflexivity|].
  split; [|exact Hidx].
  rewrite Hother by discriminate.
  injection Hsrc as <-. vm_compute. reflexivity.
Defined.

(** C7 for boat 1 after its last row. *)
Lemma get_next_message_idle_witness :
  has_next_message spent_boat = false ∧
  get_next_message calm spent_boat world0 = (None, spent_boat, world0).
Proof.
  assert (has_next_message spent_boat = false) as H by reflexivity.
  split; [exact H|].
  exact (get_next_message_idle calm spent_boat world0 H).
Defined.

(** C8 for two workers with one boat each. *)
Lemma total_is_sum_of_sent_counts_witness :
  let tasks := [task_of calm (boat_of 1 ITA 0 3);
                task_of calm (boat_of 2 USA 1 4)] in
  (Forall (λ t, Forall constructed (task_boats t)) tasks ∧
   Forall (λ t, ∃ n, returned (run_task t) = Ok n) tasks) ∧
  total_messages tasks =
    sum_list_with (λ t, sent_total (boats_after (run_task t))) tasks.
Proof.
  intros tasks.
  assert (Forall (λ t, Forall constructed (task_boats t)) tasks) as H1.
  { apply Forall_cons_2; [exact (built_constructed _ _ _ _ _ _)|].
    apply Forall_cons_2; [exact (built_constructed _ _ _ _ _ _)|].
    apply Forall_nil_2. }
  assert (Forall (λ t, ∃ n, returned (run_task t) = Ok n) tasks) as H2.
  { apply Forall_cons_2; [exists 3%nat; vm_compute; reflexivity|].
    apply Forall_cons_2; [exists 3%nat; vm_compute; reflexivity|].
    apply Forall_nil_2. }
  split; [by split|].
  exact (total_is_sum_of_sent_counts tasks H1 H2).
Defined.

(** C9 for boat 1 alone on its worker. *)
Lemma emitted_count_is_rows_loaded_witness :
  let o := worker_thread_simulation calm [first_boat] world0 in
  (Forall constructed [first_boat] ∧
   [first_boat] !! 0%nat = Some first_boat ∧
   BoatSimulationState_init sample_files 1 ITA 0 3 "boat_data" = Ok first_boat ∧
   ∃ n, returned o = Ok n) ∧
  ∃ b', boats_after o !! 0%nat = Some b' ∧ Z.of_nat (sent_count b') = 3 - 0.
Proof.
  intros o.
  assert (BoatSimulationState_init sample_files 1 ITA 0 3 "boat_data"
            = Ok first_boat) as H3 by (vm_compute; reflexivity).
  assert (Forall constructed [first_boat]) as H1.
  { apply Forall_singleton.
    by exists sample_files, 1, ITA, 0, 3, "boat_data". }
  assert ([first_boat] !! 0%nat = Some first_boat) as H2 by reflexivity.
  assert (∃ n, returned o = Ok n) as H4
    by (exists 3%nat; vm_compute; reflexivity).
  split; [by repeat split|].
  destruct (emitted_count_is_rows_loaded calm [first_boat] world0 0
              sample_files 1 ITA 0 3 "boat_data" first_boat H1 H2 H3 H4)
    as (b' & reader & Hb' & Hfile & _ & _ & _ & Hfull).
  exists b'. split; [exact Hb'|].
  apply Hfull; [lia|].
  assert (reader = ita_rows) as ->
    by (assert (sample_files !! ITA = Some ita_rows) as Hr
          by (vm_compute; reflexivity); congruence).
  simpl. lia.
Defined.

(** C10 for the default window on the three rows of [ITA]. *)
Lemma load_data_truncates_at_end_of_dataset_witness :
  (sample_files !! ITA = Some ita_rows ∧
   0 ≤ START_ROW ≤ END_ROW ∧
   Z.of_nat (length ita_rows) < END_ROW) ∧
  ∃ b, BoatSimulationState_init sample_files 1 ITA START_ROW END_ROW
         "boat_data" = Ok b ∧
    data_lines b = drop (Z.to_nat START_ROW) ita_rows ∧
    Z.of_nat (length (data_lines b)) =
      Z.min (END_ROW - START_ROW)
        (Z.max 0 (Z.of_nat (length ita_rows) - START_ROW)).
Proof.
  assert (sample_files !! ITA = Some ita_rows) as H1
    by (vm_compute; reflexivity).
  assert (0 ≤ START_ROW ≤ END_ROW) as H2 by (vm_compute; split; discriminate).
  assert (Z.of_nat (length ita_rows) < END_ROW) as H3 by reflexivity.
  split; [by repeat split|].
  exact (load_data_truncates_at_end_of_dataset sample_files 1 ITA
           START_ROW END_ROW "boat_data" ita_rows H1 H2 H3).
Defined.

(** * More of the script *)

(** ** The capacity and what it covers *)

Lemma capacity_in_range (n w c : Z) :
  calculate_boats_per_thread n w = Ok c → 1 ≤ c ≤ 50.
Proof.
  unfold calculate_boats_per_thread.
  repeat case_match; intros [= <-]; lia.
Qed.

Lemma capacity_value (n w c : Z) :
  1 ≤ n → 1 ≤ w → calculate_boats_per_thread n w = Ok c →
  c = if n >? w then Z.min 50 (3 * (n / w) / 2) else 1.
Proof.
  intros Hn Hw. unfold calculate_boats_per_thread.
  destruct (Z.eqb_spec w 0) as [->|_]; [lia|].
  destruct (Z.gtb_spec n w) as [Hgt|Hle].
  - assert (1 ≤ n / w) by (apply Z.div_le_lower_bound; lia).
    rewrite (Z.max_r 1 (n / w)) by lia.
    destruct (double_limit_15 <? n / w); [done|]. intros [= <-].
    assert (1 ≤ 3 * (n / w) / 2) by (apply Z.div_le_lower_bound; lia).
    lia.
  - assert (n / w ≤ 1) by (apply Z.div_le_upper_bound; lia).
    assert (0 ≤ n / w) by (apply Z.div_pos; lia).
    destruct (double_limit_10 <? Z.max 1 (n / w)); [done|]. intros [= <-]. lia.
Qed.

(** X1: whatever the numbers of boats and workers, a capacity that
    [calculate_boats_per_thread] returns lies between 1 and 50. *)
Theorem capacity_between_1_and_50 (n w c : Z) :
  calculate_boats_per_thread n w = Ok c → 1 ≤ c ≤ 50.
Proof.
  intros Hc. pose proof (capacity_in_range n w c Hc). lia.
Qed.

(** X2: for [N >= 1] boats and [W >= 1] workers, the capacity [C] the
    script computes lets the workers hold every boat ([N <= W*C])
    exactly when [N <= W] or [2W <= N <= 50W]; between [W] and [2W]
    boats, and above [50W], some boat has no place. *)
Theorem capacity_covers_every_boat_iff (n w c : Z) :
  1 ≤ n → 1 ≤ w → calculate_boats_per_thread n w = Ok c →
  n ≤ w * c ↔ n ≤ w ∨ (2 * w ≤ n ∧ n ≤ 50 * w).
Proof.
  intros Hn Hw Hc. rewrite (capacity_value n w c Hn Hw Hc).
  destruct (Z.gtb_spec n w) as [Hgt|Hle]; [|lia].
  pose proof (Z.div_mod n w ltac:(lia)) as Hdm.
  pose proof (Z.mod_pos_bound n w ltac:(lia)) as Hr.
  assert (1 ≤ n / w) as Hq by (apply Z.div_le_lower_bound; lia).
  generalize dependent (n mod w). generalize dependent (n / w).
  intros q Hq r Hdm Hr.
  pose proof (Z.div_mod (3 * q) 2 ltac:(lia)) as Hdm2.
  pose proof (Z.mod_pos_bound (3 * q) 2 ltac:(lia)) as Hr2.
  generalize dependent (3 * q mod 2). generalize dependent (3 * q / 2).
  intros h r2 Hdm2 Hr2.
  split.
  - intros Hcover. right. split; [|nia].
    destruct (Z.le_gt_cases (2 * w) n) as [|Hlt]; [done|].
    assert (q = 1) by nia. nia.
  - intros [Hle|[H2 H50]]; [exfalso; lia|].
    assert (2 ≤ q) by nia.
    destruct (Z.le_gt_cases 50 h).
    + rewrite Z.min_l by lia. lia.
    + rewrite Z.min_r by lia. assert (q + 1 ≤ h) by lia. nia.
Qed.

(** ** The order of the claims *)

Section ClaimOrder.

Context {A : Type}.
Variables (C W : nat) (boats : list A).

Lemma claim_step_fifo (p : Pool A) (i : nat) :
  (boat_queue p = drop (length (claimed p)) boats ∧
   claimed p ≡ₚ take (length (claimed p)) boats ∧
   Forall (λ c, local_boats c `sublist_of` take (length (claimed p)) boats)
     (workers p)) →
  let p' := claim_step C p i in
  boat_queue p' = drop (length (claimed p')) boats ∧
  claimed p' ≡ₚ take (length (claimed p')) boats ∧
  Forall (λ c, local_boats c `sublist_of` take (length (claimed p')) boats)
    (workers p').
Proof.
  intros (Hq & Hperm & Hsub). unfold claim_step.
  destruct (workers p !! i) as [c|] eqn:Hi; [|done].
  destruct (claiming c) eqn:Hclaiming; simpl; [|done].
  pose proof (Forall_lookup_1 _ _ _ _ Hsub Hi) as Hc. simpl in Hc.
  assert (∀ c', local_boats c' = local_boats c →
            claimed {| boat_queue := boat_queue p;
                       workers := <[i := c']> (workers p) |} ≡ₚ claimed p)
    as Hsame.
  { intros c' Hc'. unfold claimed. simpl.
    rewrite (join_insert _ _ c _ []) by (by rewrite ?app_nil_r). done. }
  destruct (length (local_boats c) <? C)%nat.
  - destruct (boat_queue p) as [|x rest] eqn:Hqueue.
    + unfold claimed in *. simpl.
      rewrite (Permutation_length (join_insert _ i c
                 {| local_boats := local_boats c; claiming := false |} []
                 Hi ltac:(by rewrite app_nil_r))).
      simpl. split; [done|]. split.
      * rewrite (join_insert _ _ c _ []) by (by rewrite ?app_nil_r). done.
      * by apply Forall_insert.
    + set (k := length (claimed p)) in *.
      assert (boats !! k = Some x) as Hk.
      { rewrite <- (Nat.add_0_r k), <- lookup_drop, <- Hq. done. }
      assert (rest = drop (S k) boats) as Hrest.
      { rewrite (drop_S _ _ _ Hk) in Hq. by injection Hq. }
      assert (claimed {| boat_queue := rest;
                         workers := <[i := {| local_boats := local_boats c ++ [x];
                                              claiming := true |}]> (workers p) |}
                ≡ₚ x :: claimed p) as Hnew.
      { unfold claimed. simpl. by rewrite (join_insert _ _ c _ [x]). }
      rewrite (Permutation_length Hnew). simpl. fold k.
      split; [done|]. split.
      * rewrite Hnew, Hperm, (take_S_r _ _ _ Hk). by rewrite Permutation_app_comm.
      * rewrite (take_S_r _ _ _ Hk). apply Forall_insert.
        -- eapply Forall_impl; [exact Hsub|]. simpl. intros c' Hc'.
           by apply sublist_inserts_r.
        -- simpl. by apply sublist_app.
  - pose proof (Hsame {| local_boats := local_boats c; claiming := false |}
                  eq_refl) as Hfull.
    rewrite (Permutation_length Hfull).
    split; [done|]. split; [by rewrite Hfull|].
    by apply Forall_insert.
Qed.

Lemma claim_phase_fifo_invariant (order : list nat) :
  let p := claim_phase C order (start_pool boats W) in
  boat_queue p = drop (length (claimed p)) boats ∧
  claimed p ≡ₚ take (length (claimed p)) boats ∧
  Forall (λ c, local_boats c `sublist_of` take (length (claimed p)) boats)
    (workers p).
Proof.
  induction order as [|i order IH] using rev_ind.
  - simpl. unfold claimed. simpl.
    rewrite join_replicate_empty by done. simpl.
    split; [by rewrite drop_0|]. split; [by rewrite take_0|].
    apply Forall_replicate. simpl. apply sublist_nil_l.
  - unfold claim_phase. rewrite foldl_app. simpl.
    by apply claim_step_fifo.
Qed.

Lemma settled_claimed_length (order : list nat) :
  let p := claim_phase C order (start_pool boats W) in
  settled p = true →
  length (claimed p) = (length boats `min` (W * C))%nat.
Proof.
  intros p Hsettled.
  destruct (claim_phase_invariant C W boats order)
    as [Hw Hperm Hcap Hleft Hturns].
  fold p in Hw, Hperm, Hcap, Hleft, Hturns.
  apply settled_all_left in Hsettled.
  pose proof (join_length_cap C _ Hcap) as Hbound.
  fold (claimed p) in Hbound. rewrite Hw in Hbound.
  assert (length (claimed p) + length (boat_queue p) = length boats)%nat
    as Hsize by (by rewrite <- length_app, Hperm).
  destruct (boat_queue p) as [|x rest] eqn:Hq; [simpl in Hsize; lia|].
  assert (length (claimed p) = (W * C)%nat) as Hfull.
  { unfold claimed. rewrite <- Hw. apply join_length_full.
    apply Forall_lookup. intros i c Hi.
    pose proof (Forall_lookup_1 _ _ _ _ Hsettled Hi) as Hc. simpl in Hc.
    by destruct (Forall_lookup_1 _ _ _ _ Hleft Hi Hc). }
  simpl in Hsize. lia.
Qed.

(** X4: the queue is served first come, first served, whatever the
    interleaving: after any number of iterations the queue is the boats
    without its first [k], where [k] boats are held by the workers;
    the boats held are those first [k]; every batch keeps the order of
    the queue and never exceeds the capacity; and once all workers have
    left their claim loops, [k] is [min(N, W*C)]. *)
Theorem claim_phase_is_first_come_first_served (order : list nat) :
  let p := claim_phase C order (start_pool boats W) in
  let k := length (claimed p) in
  boat_queue p = drop k boats ∧
  claimed p ≡ₚ take k boats ∧
  (∀ i c, workers p !! i = Some c →
     local_boats c `sublist_of` boats ∧ (length (local_boats c) ≤ C)%nat) ∧
  (settled p = true → k = (length boats `min` (W * C))%nat).
Proof.
  intros p k.
  destruct (claim_phase_fifo_invariant order) as (Hq & Hperm & Hsub).
  fold p in Hq, Hperm, Hsub. fold k in Hq, Hperm, Hsub.
  split; [done|]. split; [done|]. split.
  - intros i c Hi. split.
    + trans (take k boats); [|apply sublist_take].
      exact (Forall_lookup_1 _ _ _ _ Hsub Hi).
    + destruct (claim_phase_invariant C W boats order) as [_ _ Hcap _ _].
      exact (Forall_lookup_1 _ _ _ _ Hcap Hi).
  - apply settled_claimed_length.
Qed.

End ClaimOrder.

(** X3: with the capacity [C] the script computes for [N >= 1] boats
    and [W >= 1] workers, the boats left in the queue when all workers
    have left their claim loops number [max(0, N - W*C)], and none is
    left exactly when [N <= W*C]. *)
Theorem computed_capacity_leaves_the_excess {A : Type} (boats : list A)
    (W : nat) (c : Z) (order : list nat) :
  (1 ≤ length boats)%nat → (1 ≤ W)%nat →
  calculate_boats_per_thread (Z.of_nat (length boats)) (Z.of_nat W) = Ok c →
  let p := claim_phase (Z.to_nat c) order (start_pool boats W) in
  settled p = true →
  Z.of_nat (length (boat_queue p))
    = Z.max 0 (Z.of_nat (length boats) - Z.of_nat W * c) ∧
  (boat_queue p = [] ↔ Z.of_nat (length boats) ≤ Z.of_nat W * c).
Proof.
  intros HN HW Hc p Hsettled.
  pose proof (capacity_in_range _ _ _ Hc) as Hrange.
  pose proof (settled_claimed_length (Z.to_nat c) W boats order Hsettled)
    as Hlen.
  fold p in Hlen.
  destruct (claim_phase_invariant (Z.to_nat c) W boats order)
    as [_ Hperm _ _ _]. fold p in Hperm.
  assert (length (claimed p) + length (boat_queue p) = length boats)%nat
    as Hsize by (by rewrite <- length_app, Hperm).
  assert (Z.of_nat (W * Z.to_nat c) = Z.of_nat W * c) as Hwc
    by (rewrite Nat2Z.inj_mul, Z2Nat.id; lia).
  split; [lia|].
  split.
  - intros Hq. rewrite Hq in Hsize. simpl in Hsize. lia.
  - intros Hcover. destruct (boat_queue p); [done|]. simpl in Hsize. lia.
Qed.

(** ** What a visit and a worker emit *)

Section EmissionFacts.

Variable env : Env.

Lemma can_send_now_due (b : BoatSimulationState) (w : World) :
  ((can_send_now env b w).1 = true →
     RATE_INTERVAL ≤ now w - last_send_time b) ∧
  ((can_send_now env b w).1 = false →
     now w - last_send_time b ≤ RATE_INTERVAL).
Proof.
  unfold can_send_now. simpl.
  destruct (Z.eqb_spec (now w - last_send_time b) RATE_INTERVAL).
  - split; intros; lia.
  - destruct (Z.geb_spec (now w - last_send_time b) RATE_INTERVAL);
      split; intros; try done; lia.
Qed.

Lemma spin_facts (fuel : nat) (b : BoatSimulationState) (w : World) :
  now w ≤ now (spin env fuel b w).2 ∧
  ((spin env fuel b w).1.1 = true →
     last_send_time b + RATE_INTERVAL ≤ now (spin env fuel b w).2) ∧
  1000 * Z.of_nat (spin env fuel b w).1.2
    ≤ Z.max 0 (last_send_time b + RATE_INTERVAL - now w + 1000).
Proof.
  revert w. induction fuel as [|fuel IH]; intros w; simpl.
  - pose proof (can_send_now_due b w) as [Hyes Hno].
    unfold can_send_now in Hyes, Hno. simpl in Hyes, Hno.
    destruct (if now w - last_send_time b =? RATE_INTERVAL
              then due_at_interval env (now w) (last_send_time b)
              else now w - last_send_time b >=? RATE_INTERVAL);
      simpl; repeat split; try intros; try done;
      try specialize (Hyes eq_refl); lia.
  - pose proof (can_send_now_due b w) as [Hyes Hno].
    unfold can_send_now in Hyes, Hno. simpl in Hyes, Hno.
    destruct (if now w - last_send_time b =? RATE_INTERVAL
              then due_at_interval env (now w) (last_send_time b)
              else now w - last_send_time b >=? RATE_INTERVAL).
    { specialize (Hyes eq_refl). simpl; repeat split; try intros; lia. }
    specialize (Hno eq_refl).
    specialize (IH (time_sleep_1ms env (pass env 0 w))).
    destruct (spin env fuel b (time_sleep_1ms env (pass env 0 w)))
      as [[d naps] w2].
    simpl in *. destruct IH as (H1 & H2 & H3).
    repeat split; try intros; try lia. by apply H2.
Qed.

Lemma unstamped_stamped (source : Row) (id t1 t2 : string) :
  unstamped (<["boat" := id]> (<["timestamp" := t2]> (<["time" := t1]> source)))
  = <["boat" := id]> (unstamped source).
Proof.
  unfold unstamped. apply map_eq. intros k.
  destruct (decide (k = "timestamp")) as [->|Hts].
  { rewrite lookup_delete_eq, lookup_insert_ne by done.
    by rewrite lookup_delete_eq. }
  rewrite lookup_delete_ne by done.
  destruct (decide (k = "time")) as [->|Ht].
  { rewrite lookup_delete_eq, lookup_insert_ne by done.
    rewrite lookup_delete_ne by done. by rewrite lookup_delete_eq. }
  rewrite lookup_delete_ne by done.
  destruct (decide (k = "boat")) as [->|Hb].
  { by rewrite !lookup_insert_eq. }
  rewrite !lookup_insert_ne by done.
  by rewrite !lookup_delete_ne by done.
Qed.

(** Everything one emitting visit does. *)

Lemma visit_boat_emission (b : BoatSimulationState) (w : World) :
  has_next_message b = true →
  ∃ naps source instant t w',
    data_lines b !! current_index b = Some source ∧
    visit_boat env b w =
      (let row := <["boat" := unique_boat_id b]>
                    (<["timestamp" := strftime env instant]>
                       (<["time" := strftime env instant]> source)) in
       if produce_raises env (produce_calls w) then Failed naps row
       else Sent naps row,
       emitted b t, w') ∧
    now w ≤ instant ∧
    last_send_time b + RATE_INTERVAL ≤ instant ∧
    instant ≤ t ∧ t ≤ now w' ∧
    1000 * Z.of_nat naps
      ≤ Z.max 0 (last_send_time b + RATE_INTERVAL - now w + 1000) ∧
    produce_calls w' = S (produce_calls w) ∧
    delivered w' =
      delivered w ++
      (if produce_raises env (produce_calls w) then []
       else [<["boat" := unique_boat_id b]>
               (<["timestamp" := strftime env instant]>
                  (<["time" := strftime env instant]> source))]).
Proof.
  intros Hnext. unfold visit_boat. rewrite Hnext. simpl.
  pose proof (wait_until_due_leaves_by_test env b w) as Hdue.
  pose proof (spin_facts
    (Z.to_nat (last_send_time b + RATE_INTERVAL + 1 - now w)) b w)
    as (Hmono & Hgate & Hnaps).
  pose proof (spin_produce_calls env
    (Z.to_nat (last_send_time b + RATE_INTERVAL + 1 - now w)) b w)
    as [Hcalls Hdelivered].
  fold (wait_until_due env b w) in Hmono, Hgate, Hnaps, Hcalls, Hdelivered.
  destruct (wait_until_due env b w) as [[d naps] w1]. simpl in *.
  specialize (Hgate Hdue).
  destruct (get_next_message_pending env b w1 Hnext) as (source & Hsrc & ->).
  unfold truthy. rewrite bool_decide_eq_false_2 by apply insert_non_empty.
  simpl. unfold producer_produce. simpl. rewrite Hcalls.
  exists naps, source, (now w1), (now w1 + 0 + Z.of_N (elapse env (events w1))).
  destruct (produce_raises env (produce_calls w)); eexists;
    (split; [done|]); (split; [reflexivity|]); simpl;
    rewrite ?Hdelivered, ?app_nil_r; repeat split; try done; lia.
Qed.




Lemma round_loop_world (bs : list BoatSimulationState) (total : nat)
    (w : World) entries bs' w' res :
  round_loop env bs total w = (entries, bs', w', res) →
  delivered w' = delivered w ++ round_messages entries ∧
  produce_calls w' =
    (produce_calls w + length (round_messages entries)
     + match res with Ok _ => 0 | Raise _ => 1 end)%nat ∧
  ∀ total', res = Ok total' →
    total' = (total + length (round_messages entries))%nat.
Proof.
  revert total w entries bs' w' res.
  induction bs as [|b rest IH]; intros total w entries bs' w' res; simpl.
  - intros [= <- <- <- <-]. unfold round_messages. simpl.
    rewrite app_nil_r. repeat split; try lia. intros total' [= <-]. lia.
  - destruct (has_next_message b) eqn:Hnext.
    + destruct (visit_boat_emission b w Hnext)
        as (naps & source & instant & t & w1 & _ & -> & _ & _ & _ & _ & _
            & Hcalls & Hdelivered).
      destruct (produce_raises env (produce_calls w)); simpl.
      * intros [= <- <- <- <-]. unfold round_messages. simpl.
        rewrite Hcalls, Hdelivered. repeat split; try done; lia.
      * destruct (round_loop env rest (S total) w1)
          as [[[es rest'] w2] r] eqn:Hrl.
        intros [= <- <- <- <-].
        destruct (IH _ _ _ _ _ _ Hrl) as (Hd & Hc & Ht).
        unfold round_messages in *. rewrite bind_cons. simpl.
        rewrite Hd, Hdelivered, Hc, Hcalls, <- app_assoc. simpl.
        repeat split; try done; try lia.
        intros total' Hr. specialize (Ht total' Hr). lia.
    + rewrite visit_boat_skip by done.
      destruct (round_loop env rest total w) as [[[es rest'] w2] r] eqn:Hrl.
      intros [= <- <- <- <-].
      destruct (IH _ _ _ _ _ _ Hrl) as (Hd & Hc & Ht).
      unfold round_messages in *. rewrite bind_cons. simpl.
      by repeat split.
Qed.

Lemma rounds_loop_world (k : nat) (bs : list BoatSimulationState)
    (total : nat) (w : World) sched bs' w' res :
  rounds_loop env k bs total w = (sched, bs', w', res) →
  delivered w' = delivered w ++ sent_messages sched ∧
  produce_calls w' =
    (produce_calls w + length (sent_messages sched)
     + match res with Ok _ => 0 | Raise _ => 1 end)%nat ∧
  ∀ total', res = Ok total' →
    total' = (total + length (sent_messages sched))%nat.
Proof.
  revert bs total w sched bs' w' res.
  induction k as [|k IH]; intros bs total w sched bs' w' res; simpl.
  - intros [= <- <- <- <-]. unfold sent_messages. simpl.
    rewrite app_nil_r. repeat split; try lia. intros total' [= <-]. lia.
  - destruct (round_loop env bs total w) as [[[es bs1] w1] r1] eqn:Hround.
    destruct (round_loop_world _ _ _ _ _ _ _ Hround) as (Hd1 & Hc1 & Ht1).
    destruct r1 as [total1|e].
    + destruct (rounds_loop env k bs1 total1 w1)
        as [[[later bs2] w2] r2] eqn:Hlater.
      intros [= <- <- <- <-].
      destruct (IH _ _ _ _ _ _ _ Hlater) as (Hd & Hc & Ht).
      unfold sent_messages in *. rewrite bind_cons.
      rewrite Hd, Hd1, Hc, Hc1, length_app, <- app_assoc.
      repeat split; try done; try lia.
      intros total' Hr. specialize (Ht total' Hr).
      specialize (Ht1 total1 eq_refl). lia.
    + intros [= <- <- <- <-]. unfold sent_messages. rewrite bind_cons. simpl.
      rewrite app_nil_r. by repeat split.
Qed.

(** X7: whatever the producer does, the messages it accepted during a
    worker's run are those of the [Sent] visits, in order, after what
    it held before; [produce] was called once per message accepted and
    once more if the worker raised; and the count a worker returns is
    the number of messages accepted. *)
Theorem worker_returns_what_the_producer_accepted
    (bs : list BoatSimulationState) (w : World) :
  let o := worker_thread_simulation env bs w in
  delivered (world_after o) = delivered w ++ sent_messages (schedule o) ∧
  produce_calls (world_after o) =
    (produce_calls w + length (sent_messages (schedule o))
     + match returned o with Ok _ => 0 | Raise _ => 1 end)%nat ∧
  ∀ n, returned o = Ok n → n = length (sent_messages (schedule o)).
Proof.
  intros o. subst o. rewrite worker_unfold.
  destruct (rounds_loop env (max_rounds bs) bs O w)
    as [[[sched boats] w'] res] eqn:Hloop.
  simpl. destruct (rounds_loop_world _ _ _ _ _ _ _ _ Hloop) as (Hd & Hc & Ht).
  repeat split; done.
Qed.

End EmissionFacts.

Section ReplayFacts.

Variable env : Env.

Lemma round_loop_rows (r : nat) (bs0 bs : list BoatSimulationState)
    (total : nat) (w : World) entries bs' w' total' :
  Forall2 (progress r) bs0 bs →
  round_loop env bs total w = (entries, bs', w', Ok total') →
  unstamped <$> round_messages entries = round_rows bs0 r ∧
  Forall stamped (round_messages entries).
Proof.
  intros Hall. revert total w entries bs' w' total'.
  induction Hall as [|b0 b rest0 rest Hb Hrest IH];
    intros total w entries bs' w' total'; simpl.
  - by intros [= <- <- <- <-].
  - pose proof (progress_has_next _ _ _ Hb) as Hnext.
    destruct Hb as (Hrows & Hid & Hidx & _).
    unfold round_rows. simpl. unfold replayed at 1.
    destruct (Nat.ltb_spec r (length (data_lines b0))) as [Hlt|Hge].
    + destruct (visit_boat_emission env b w Hnext)
        as (naps & source & instant & t & w1 & Hsrc & -> & _).
      destruct (produce_raises env (produce_calls w)); simpl; [done|].
      destruct (round_loop env rest (S total) w1)
        as [[[es rest'] w2] res] eqn:Hrl.
      intros [= <- <- <- ->]. apply IH in Hrl as [H1 H2].
      rewrite Hidx, Hrows, Nat.min_l in Hsrc by lia. rewrite Hsrc. simpl.
      rewrite unstamped_stamped, Hid. split; [f_equal; exact H1|].
      constructor; [|done]. split.
      * rewrite lookup_insert_ne, lookup_insert_ne, lookup_insert_eq by done.
        by eexists.
      * rewrite lookup_insert_ne, lookup_insert_eq by done.
        by rewrite lookup_insert_ne, lookup_insert_ne, lookup_insert_eq.
    + rewrite visit_boat_skip by done.
      destruct (round_loop env rest total w) as [[[es rest'] w2] res] eqn:Hrl.
      intros [= <- <- <- ->]. apply IH in Hrl as [H1 H2].
      rewrite (lookup_ge_None_2 (data_lines b0) r) by lia. simpl.
      by split.
Qed.

Lemma rounds_loop_rows (k r : nat) (bs0 bs : list BoatSimulationState)
    (total : nat) (w : World) sched bs' w' total' :
  Forall2 (progress r) bs0 bs →
  rounds_loop env k bs total w = (sched, bs', w', Ok total') →
  unstamped <$> sent_messages sched = seq r k ≫= round_rows bs0 ∧
  Forall stamped (sent_messages sched).
Proof.
  revert r bs total w sched bs' w' total'.
  induction k as [|k IH]; intros r bs total w sched bs' w' total' Hall; simpl.
  - by intros [= <- <- <- <-].
  - destruct (round_loop env bs total w) as [[[es bs1] w1] r1] eqn:Hround.
    destruct r1 as [total1|e]; [|done].
    destruct (rounds_loop env k bs1 total1 w1)
      as [[[later bs2] w2] r2] eqn:Hlater.
    intros [= <- <- <- ->].
    destruct (round_loop_progress _ _ _ _ _ _ _ _ _ _ Hall Hround) as [H1 _].
    destruct (round_loop_rows _ _ _ _ _ _ _ _ _ Hall Hround) as [Hrows Hst].
    destruct (IH _ _ _ _ _ _ _ _ H1 Hlater) as [Hrows' Hst'].
    unfold sent_messages in *. rewrite !bind_cons, fmap_app.
    rewrite Hrows, Hrows'. split; [done|]. by apply Forall_app.
Qed.

Lemma progress_sent_total (r : nat) (bs0 bs : list BoatSimulationState) :
  Forall2 (progress r) bs0 bs →
  Forall (λ b, length (data_lines b) ≤ r)%nat bs0 →
  sent_total bs = (sent_total bs0
                   + sum_list_with (λ b, length (data_lines b)) bs0)%nat.
Proof.
  induction 1 as [|b0 b rest0 rest Hb _ IH]; [done|].
  intros [Hr Hrest]%Forall_cons. rewrite !sent_total_cons, IH by done.
  destruct Hb as (_ & _ & _ & -> & _). simpl. lia.
Qed.

(** A worker that returns has sent one message per row of its batch. *)

Lemma worker_ok_count (bs : list BoatSimulationState) (w : World) (n : nat) :
  Forall constructed bs →
  returned (worker_thread_simulation env bs w) = Ok n →
  n = sum_list_with (λ b, length (data_lines b)) bs.
Proof.
  intros Hall. rewrite worker_unfold.
  destruct (rounds_loop env (max_rounds bs) bs O w)
    as [[[sched boats'] w'] res] eqn:Hloop.
  simpl. intros ->.
  destruct (rounds_loop_progress _ _ 0 _ _ _ _ _ _ _ _
              (constructed_progress bs Hall) Hloop) as (_ & Hfin & _).
  apply rounds_loop_conserves in Hloop.
  rewrite (progress_sent_total _ _ _ Hfin) in Hloop.
  - rewrite constructed_sent_total in Hloop by done. lia.
  - apply Forall_forall. intros b Hb. simpl. by apply max_rounds_bounds.
Qed.

(** X8: a worker that returns has sent every row of every boat of its
    batch exactly once, round by round: the messages accepted are,
    their time fields apart, row 0 of each boat in claim order, then
    row 1 of each boat that has one, and so on, each under its boat's
    unique id; every message carries equal [time] and [timestamp]. *)
Theorem worker_replays_rows_round_by_round
    (bs : list BoatSimulationState) (w : World) (n : nat) :
  Forall constructed bs →
  returned (worker_thread_simulation env bs w) = Ok n →
  ∃ messages,
    delivered (world_after (worker_thread_simulation env bs w))
      = delivered w ++ messages ∧
    unstamped <$> messages
      = seq 0 (max_list_with (λ b, length (data_lines b)) bs)
          ≫= round_rows bs ∧
    Forall stamped messages ∧
    length messages = sum_list_with (λ b, length (data_lines b)) bs.
Proof.
  intros Hall Hok.
  pose proof (worker_ok_count bs w n Hall Hok) as Hcount.
  revert Hok. rewrite worker_unfold.
  destruct (rounds_loop env (max_rounds bs) bs O w)
    as [[[sched boats'] w'] res] eqn:Hloop.
  simpl. intros ->.
  destruct (rounds_loop_world env _ _ _ _ _ _ _ _ Hloop) as (Hd & _ & Ht).
  destruct (rounds_loop_rows _ 0 _ _ _ _ _ _ _ _
              (constructed_progress bs Hall) Hloop) as [Hrows Hst].
  exists (sent_messages sched).
  split; [done|]. split; [by rewrite Hrows, max_rounds_max_list|].
  split; [done|]. rewrite <- Hcount. by rewrite (Ht n eq_refl).
Qed.

End ReplayFacts.

(** ** The boat over any calls *)

Section MachineFacts.

Variable env : Env.

Lemma advanced_refl (b : BoatSimulationState) : advanced b b.
Proof. by repeat split. Qed.

Lemma advanced_trans (b1 b2 b3 : BoatSimulationState) :
  advanced b1 b2 → advanced b2 b3 → advanced b1 b3.
Proof.
  unfold advanced. intros H1 H2.
  destruct H1 as (?&?&?&?&?&?&?&?&?&?&?), H2 as (?&?&?&?&?&?&?&?&?&?&?).
  repeat split; try congruence; try lia. auto.
Qed.

Lemma apply_operation_advanced (st : BoatSimulationState * World)
    (o : operation) :
  advanced st.1 (apply_operation env st o).1.
Proof.
  destruct st as [b w], o; simpl; try apply advanced_refl.
  destruct (has_next_message b) eqn:Hnext.
  - destruct (get_next_message_pending env b w Hnext) as (source & _ & ->).
    unfold advanced. simpl. repeat split; try lia.
    intros ->. by destruct (_ <=? _)%nat.
  - unfold get_next_message. rewrite Hnext. apply advanced_refl.
Qed.

Lemma apply_operation_consistent (st : BoatSimulationState * World)
    (o : operation) :
  consistent st.1 → consistent (apply_operation env st o).1.
Proof.
  destruct st as [b w], o; simpl; try done.
  intros (Hle & Hflag & Hcount).
  destruct (has_next_message b) eqn:Hnext.
  - destruct (get_next_message_pending env b w Hnext) as (source & _ & ->).
    unfold has_next_message in Hnext.
    apply andb_prop in Hnext as [Hlt Hnc]. apply Nat.ltb_lt in Hlt.
    apply negb_true_iff in Hnc.
    unfold consistent. simpl. rewrite Hnc.
    destruct (Nat.leb_spec (length (data_lines b)) (S (current_index b)));
      repeat split; try intros; try done; lia.
  - unfold get_next_message. by rewrite Hnext.
Qed.

Lemma run_operations_advanced (ops : list operation)
    (st : BoatSimulationState * World) :
  advanced st.1 (run_operations env ops st).1 ∧
  (consistent st.1 → consistent (run_operations env ops st).1).
Proof.
  revert st. unfold run_operations.
  induction ops as [|o ops IH]; intros st; simpl.
  - split; [apply advanced_refl|done].
  - destruct (IH (apply_operation env st o)) as [H1 H2]. split.
    + eapply advanced_trans; [apply apply_operation_advanced|exact H1].
    + intros Hst. by apply H2, apply_operation_consistent.
Qed.

Lemma consistent_has_next (b : BoatSimulationState) :
  consistent b →
  has_next_message b = (current_index b <? length (data_lines b))%nat.
Proof.
  intros (Hle & Hflag & _). unfold has_next_message.
  destruct (Nat.ltb_spec (current_index b) (length (data_lines b))); [|done].
  destruct (completed b); [|done]. specialize (Hflag eq_refl). lia.
Qed.

(** X9: the operations of a boat only move it forward: whatever the
    calls, the rows and the identity stay, the cursor never goes back,
    the counter grows by as much as the cursor, and a boat once
    completed stays completed. *)
Theorem operations_only_advance_the_cursor (ops : list operation)
    (b : BoatSimulationState) (w : World) :
  let b' := (run_operations env ops (b, w)).1 in
  data_lines b' = data_lines b ∧
  unique_boat_id b' = unique_boat_id b ∧
  boat_id b' = boat_id b ∧
  (current_index b ≤ current_index b')%nat ∧
  (sent_count b' + current_index b = sent_count b + current_index b')%nat ∧
  (completed b = true → completed b' = true).
Proof.
  intros b'. destruct (run_operations_advanced ops (b, w)) as [Hadv _].
  fold b' in Hadv. unfold advanced in Hadv. simpl in Hadv.
  destruct Hadv as (?&?&?&?&?&?&?&?&?&?&?). by repeat split.
Qed.

(** X10: on a boat built by the constructor, after any calls, the
    counter equals the cursor, the cursor is within the rows, and
    [has_next_message] is just "cursor below the number of rows": the
    completion flag never decides it. *)
Theorem constructed_boat_counts_its_cursor (files : datasets) (id : Z)
    (path : string) (s e : Z) (topic : string) (b : BoatSimulationState)
    (ops : list operation) (w : World) :
  BoatSimulationState_init files id path s e topic = Ok b →
  let b' := (run_operations env ops (b, w)).1 in
  sent_count b' = current_index b' ∧
  (current_index b' ≤ length (data_lines b'))%nat ∧
  has_next_message b' = (current_index b' <? length (data_lines b'))%nat.
Proof.
  intros Hinit b'.
  destruct (init_data_lines _ _ _ _ _ _ _ Hinit)
    as (reader & _ & _ & Hidx & Hsent & Hflag).
  destruct (run_operations_advanced ops (b, w)) as [_ Hcons].
  fold b' in Hcons. simpl in Hcons.
  assert (consistent b') as Hb'.
  { apply Hcons. unfold consistent. rewrite Hidx, Hsent, Hflag.
    repeat split; try done; lia. }
  pose proof (consistent_has_next b' Hb') as Hnext.
  destruct Hb' as (Hle & _ & Hcount). by repeat split.
Qed.

End MachineFacts.

(** ** Loading a window, at its edges *)

(** X11: for a start row [>= 0], row [i] of a loaded window is row
    [start_row + i] of the dataset when [i < end_row - start_row], and
    there is no row [i] otherwise. *)
Theorem load_data_row (reader : list Row) (s e : Z) (i : nat) :
  0 ≤ s →
  load_data reader s e !! i =
    if decide (Z.of_nat i < e - s) then reader !! (Z.to_nat s + i)%nat
    else None.
Proof.
  intros Hs. rewrite load_data_take_drop.
  case_decide as Hi.
  - rewrite lookup_take_lt by lia. by rewrite lookup_drop.
  - apply lookup_take_ge. lia.
Qed.

(** X12: the edges of a window: nothing is loaded when [end_row <=
    start_row] or when the dataset ends at or before [start_row]; a
    negative [start_row] skips nothing but still widens the window to
    [end_row - start_row] rows; a window inside the dataset is loaded
    whole. *)
Theorem load_data_edges (reader : list Row) (s e : Z) :
  (e ≤ s → load_data reader s e = []) ∧
  (Z.of_nat (length reader) ≤ s → load_data reader s e = []) ∧
  (s ≤ 0 → load_data reader s e = take (Z.to_nat (e - s)) reader) ∧
  (0 ≤ s ≤ e → e ≤ Z.of_nat (length reader) →
     Z.of_nat (length (load_data reader s e)) = e - s).
Proof.
  rewrite load_data_take_drop. repeat split.
  - intros Hle. by replace (Z.to_nat (e - s)) with O by lia.
  - intros Hshort. rewrite drop_ge by lia. apply take_nil.
  - intros Hneg. by replace (Z.to_nat s) with O by lia.
  - intros Hse Hfull. rewrite length_take, length_drop. lia.
Qed.

(** ** The aggregator, whatever the completion order *)

Lemma collect_results_sum (futures : list (result nat)) (total : nat)
    (printed : list exn) :
  collect_results futures total printed =
    ((total + sum_list (returned_counts futures))%nat,
     printed ++ raised futures).
Proof.
  revert total printed.
  induction futures as [|[n|e] later IH]; intros total printed; simpl.
  - by rewrite Nat.add_0_r, app_nil_r.
  - rewrite IH. f_equal. lia.
  - rewrite IH. by rewrite <- app_assoc.
Qed.

(** X13: the order in which the workers complete does not matter: the
    total is the sum of the counts of the workers that returned, the
    exceptions printed are those of the others, and each worker is in
    one of the two groups. *)
Theorem completion_order_is_irrelevant (futures futures' : list (result nat)) :
  futures ≡ₚ futures' →
  (collect_results futures O []).1 = (collect_results futures' O []).1 ∧
  (collect_results futures O []).1 = sum_list (returned_counts futures) ∧
  (collect_results futures O []).2 ≡ₚ (collect_results futures' O []).2 ∧
  (length (collect_results futures O []).2 + length (returned_counts futures)
   = length futures)%nat.
Proof.
  intros Hperm. rewrite !collect_results_sum. simpl.
  unfold returned_counts, raised.
  split; [by rewrite Hperm|]. split; [done|]. split; [by rewrite Hperm|].
  clear. induction futures as [|[n|e] later IH]; [done|..];
    simpl; unfold omap in IH; simpl in IH; lia.
Qed.

(** ** Unique ids *)

Lemma pretty_N_go_length (x : N) (s : string) :
  (String.length s ≤ String.length (pretty_N_go x s))%nat.
Proof.
  revert s. induction (N.lt_wf_0 x) as [x _ IH]; intros s.
  assert (x = 0 ∨ 0 < x)%N as [->|Hpos] by lia; [by rewrite pretty_N_go_0|].
  rewrite pretty_N_go_step by done.
  etrans; [|apply IH; by apply N.div_lt]. simpl. lia.
Qed.

Lemma pretty_N_go_leading_zero (x : N) (s r : string) :
  pretty_N_go x s = String "0" r → x = 0%N ∧ s = String "0" r.
Proof.
  revert s. induction (N.lt_wf_0 x) as [x _ IH]; intros s.
  assert (x = 0 ∨ 0 < x)%N as [->|Hpos] by lia; [by rewrite pretty_N_go_0|].
  rewrite pretty_N_go_step by done. intros Hgo.
  apply IH in Hgo as [Hdiv [= Hchar _]]; [|by apply N.div_lt].
  apply (pretty_N_char_inj _ 0%N) in Hchar;
    [|by apply N.mod_lt|done].
  pose proof (N.div_mod x 10 ltac:(done)). lia.
Qed.

Lemma pretty_N_leading_zero (n : N) (r : string) :
  pretty n = String "0" r → n = 0%N ∧ r = "".
Proof.
  unfold pretty, pretty_N. case_decide as Hn.
  - by intros [= <-].
  - intros [? _]%pretty_N_go_leading_zero. done.
Qed.

Lemma pretty_N_not_empty (n : N) : pretty n ≠ "".
Proof.
  unfold pretty, pretty_N. case_decide as Hn; [done|].
  rewrite pretty_N_go_step by lia. intros Hempty.
  pose proof (pretty_N_go_length (n `div` 10)
                (String (pretty_N_char (n `mod` 10)) "")) as Hlen.
  rewrite Hempty in Hlen. simpl in Hlen. lia.
Qed.

Lemma pretty_N_no_dash (n : N) (r : string) : pretty n ≠ String "-" r.
Proof.
  unfold pretty, pretty_N. case_decide as Hn; [done|].
  by apply (pretty_N_go_ne_dash n "" r).
Qed.

Lemma zeros_pretty_inj (j1 j2 : nat) (a b : N) :
  zeros j1 +:+ pretty a = zeros j2 +:+ pretty b → a = b.
Proof.
  revert j2. induction j1 as [|j1 IH]; intros [|j2]; simpl.
  - apply (inj pretty).
  - intros [-> Hrest]%pretty_N_leading_zero.
    destruct j2; simpl in Hrest; [|done].
    by destruct (pretty_N_not_empty b).
  - intros Heq. symmetry in Heq.
    apply pretty_N_leading_zero in Heq as [-> Hrest].
    destruct j1; simpl in Hrest; [|done].
    by destruct (pretty_N_not_empty a).
  - intros [= Heq]. by apply (IH j2).
Qed.

Lemma pretty_Z_nonneg (z : Z) : 0 ≤ z → pretty z = pretty (Z.to_N z).
Proof. by destruct z. Qed.

Lemma format_03d_inj (a b : Z) : format_03d a = format_03d b → a = b.
Proof.
  unfold format_03d, zero_pad.
  destruct (Z.ltb_spec a 0) as [Ha|Ha], (Z.ltb_spec b 0) as [Hb|Hb].
  - rewrite !pretty_Z_nonneg by lia. simpl. intros [= Heq].
    apply zeros_pretty_inj in Heq. lia.
  - rewrite !pretty_Z_nonneg by lia. simpl.
    destruct (3 - String.length (pretty (Z.to_N b)))%nat; simpl; [|done].
    intros Heq. symmetry in Heq. by apply pretty_N_no_dash in Heq.
  - rewrite !pretty_Z_nonneg by lia. simpl.
    destruct (3 - String.length (pretty (Z.to_N a)))%nat; simpl; [|done].
    intros Heq. by apply pretty_N_no_dash in Heq.
  - rewrite !pretty_Z_nonneg by lia. intros Heq.
    apply zeros_pretty_inj in Heq. lia.
Qed.

(** X14: two boats built by the constructor have the same unique id
    only if they were given the same [boat_id]: the formatting
    [BOAT_{boat_id:03d}] loses nothing. *)
Theorem unique_boat_ids_are_unique (files files' : datasets) (id id' : Z)
    (path path' : string) (s e s' e' : Z) (topic topic' : string)
    (b b' : BoatSimulationState) :
  BoatSimulationState_init files id path s e topic = Ok b →
  BoatSimulationState_init files' id' path' s' e' topic' = Ok b' →
  unique_boat_id b = unique_boat_id b' →
  id = id'.
Proof.
  unfold BoatSimulationState_init.
  destruct (files !! path); [|done]. destruct (files' !! path'); [|done].
  intros [= <-] [= <-]. simpl. intros [= Heq].
  by apply format_03d_inj.
Qed.

(** ** From the first line to the start of the pool *)

Lemma preload_loop_spec (d : disk) (paths : list string)
    (acc : gmap string (option (list string))) :
  (Forall (λ p, is_Some (d !! p)) paths →
     ∃ pre, preload_loop d paths acc = Returns pre ∧
       ∀ p, pre !! p =
            if decide (p ∈ paths) then fieldnames <$> d !! p else acc !! p) ∧
  (¬ Forall (λ p, is_Some (d !! p)) paths →
     preload_loop d paths acc = Exits 1).
Proof.
  revert acc. induction paths as [|path later IH]; intros acc;
    cbn [preload_loop].
  - split; [|intros []; constructor].
    intros _. exists acc. split; [done|]. intros p.
    destruct (decide (p ∈ [])) as [Hp|Hp]; [by apply elem_of_nil in Hp|done].
  - destruct (d !! path) as [file|] eqn:Hfile.
    + destruct (IH (<[path := fieldnames file]> acc)) as [Hyes Hno]. split.
      * intros [_ Hlater]%Forall_cons.
        destruct (Hyes Hlater) as (pre & -> & Hpre).
        exists pre. split; [done|]. intros p. rewrite Hpre.
        destruct (decide (p ∈ later)) as [Hin|Hnin].
        -- rewrite decide_True by (apply elem_of_cons; by right). done.
        -- destruct (decide (p = path)) as [->|Hne].
           ++ rewrite decide_True by (apply elem_of_cons; by left).
              by rewrite lookup_insert_eq, Hfile.
           ++ rewrite decide_False by (by intros [|]%elem_of_cons).
              by rewrite lookup_insert_ne.
      * intros Hmissing. apply Hno. intros Hlater. apply Hmissing.
        constructor; [by eexists|done].
    + split; [|done]. intros [[file Hsome] _]%Forall_cons. congruence.
Qed.

(** X15: [main] returns only when every file of [file_paths] can be
    opened and the broker is reachable; it then hands back the capacity
    and a [preloaded_data] whose keys are the six paths, each with the
    header of its file.  In every other case it ends the script with
    [exit(1)]. *)
Theorem main_returns_only_when_ready (n w c : Z) (d : disk)
    (kafka_reachable : bool) :
  calculate_boats_per_thread n w = Ok c →
  true_division_overflows n w = false →
  (all_present d ∧ kafka_reachable = true →
     ∃ pre, main n w d kafka_reachable = Returns (c, pre) ∧
       dom pre = list_to_set file_paths ∧
       ∀ p file, p ∈ file_paths → d !! p = Some file →
                 pre !! p = Some (fieldnames file)) ∧
  (¬ (all_present d ∧ kafka_reachable = true) →
     main n w d kafka_reachable = Exits 1).
Proof.
  intros Hc Hprint. unfold main. rewrite Hc, Hprint.
  unfold preload_csv_files, all_present.
  destruct (preload_loop_spec d file_paths ∅) as [Hyes Hno]. split.
  - intros [Hall ->]. destruct (Hyes Hall) as (pre & -> & Hpre).
    exists pre. split; [done|]. split.
    + apply set_eq. intros p. rewrite elem_of_dom, elem_of_list_to_set, Hpre.
      case_decide as Hp.
      * split; [done|]. intros _.
        destruct (proj1 (Forall_forall _ _) Hall p Hp) as [file ->]. by eexists.
      * rewrite lookup_empty. split; [by intros [? [=]]|done].
    + intros p file Hp Hfile. rewrite Hpre, decide_True by done.
      by rewrite Hfile.
  - intros Hnot. destruct (decide (Forall (λ p, is_Some (d !! p)) file_paths))
      as [Hall|Hmissing].
    + destruct (Hyes Hall) as (pre & -> & _).
      destruct kafka_reachable; [|done]. by destruct Hnot.
    + by rewrite (Hno Hmissing).
Qed.

Lemma random_choice_in (pick : nat) : random_choice pick ∈ file_paths.
Proof.
  unfold random_choice.
  destruct (lookup_lt_is_Some_2 file_paths (pick `mod` length file_paths)%nat)
    as [path Hpath].
  { apply Nat.mod_upper_bound. simpl. lia. }
  rewrite Hpath. simpl. by eapply list_elem_of_lookup_2.
Qed.

(** Reading a file that may fail: the window is read as [load_data]
    reads it, unless the fault is met first. *)

Lemma skip_rows_on_disk_spec (k : nat) (rows : list Row) (fault : option exn) :
  skip_rows_on_disk k rows fault =
    match fault with
    | Some exc =>
        if (length rows <? k)%nat then Raise exc else Ok (skip_rows k rows)
    | None => Ok (skip_rows k rows)
    end.
Proof.
  revert rows. induction k as [|k IH]; intros rows.
  - simpl. by destruct fault.
  - destruct rows as [|row rest]; cbn [skip_rows_on_disk skip_rows].
    + destruct fault as [exc|]; [done|]. by rewrite IH.
    + rewrite IH. destruct fault as [exc|]; [|done]. simpl length.
      by destruct (Nat.ltb_spec (length rest) k),
                  (Nat.ltb_spec (S (length rest)) (S k)); try lia.
Qed.

Lemma read_rows_on_disk_spec (i limit : Z) (rows : list Row)
    (fault : option exn) :
  read_rows_on_disk i limit rows fault =
    match fault with
    | Some exc =>
        if (length rows <=? Z.to_nat (limit - i))%nat then Raise exc
        else Ok (read_rows i limit rows)
    | None => Ok (read_rows i limit rows)
    end.
Proof.
  revert i. induction rows as [|row rest IH]; intros i.
  - simpl. by destruct fault.
  - cbn [read_rows_on_disk read_rows]. rewrite IH. simpl length.
    destruct (Z.geb_spec i limit) as [Hge|Hlt].
    + destruct fault as [exc|]; [|done].
      by destruct (Nat.leb_spec (S (length rest)) (Z.to_nat (limit - i)));
        try lia.
    + destruct fault as [exc|]; [|done].
      by destruct (Nat.leb_spec (length rest) (Z.to_nat (limit - (i + 1)))),
                  (Nat.leb_spec (S (length rest)) (Z.to_nat (limit - i)));
        try lia.
Qed.

Lemma reads_through_dec (file : CsvFile) (s e : Z) :
  reads_through file s e ∨ ¬ reads_through file s e.
Proof.
  unfold reads_through. destruct (fault file) as [exc|]; [|by left; left].
  destruct (decide (Z.to_nat s + Z.to_nat (e - s) < length (records file))%nat).
  - left. by right.
  - right. by intros [|].
Qed.

Lemma load_data_on_disk_spec (file : CsvFile) (s e : Z) :
  (reads_through file s e →
     load_data_on_disk file s e = Ok (load_data (records file) s e)) ∧
  (¬ reads_through file s e →
     ∃ exc, fault file = Some exc ∧ load_data_on_disk file s e = Raise exc).
Proof.
  unfold load_data_on_disk, reads_through, load_data.
  rewrite skip_rows_on_disk_spec.
  destruct (fault file) as [exc|] eqn:Hfault.
  - destruct (Nat.ltb_spec (length (records file)) (Z.to_nat s)) as [Hlt|Hge].
    + split; [intros [|]; [done|lia]|]. intros _. by exists exc.
    + rewrite read_rows_on_disk_spec.
      rewrite skip_rows_drop, length_drop, Z.sub_0_r.
      destruct (Nat.leb_spec (length (records file) - Z.to_nat s)
                  (Z.to_nat (e - s))) as [Hle|Hgt].
      * split; [intros [|]; [done|lia]|]. intros _. by exists exc.
      * split; [done|]. intros Hnot. destruct Hnot. right. lia.
  - rewrite read_rows_on_disk_spec.
    split; [done|]. intros Hnot. destruct Hnot. by left.
Qed.

(** The constructor on the disk returns exactly for a file that is
    there and whose window can be read, and then it returns the boat of
    [BoatSimulationState_init]. *)

Lemma on_disk_returns (d : disk) (id : Z) (path : string) (s e : Z)
    (topic : string) (file : CsvFile) :
  d !! path = Some file → reads_through file s e →
  BoatSimulationState_on_disk d id path s e topic
  = BoatSimulationState_init (records <$> d) id path s e topic ∧
  ∃ b, BoatSimulationState_on_disk d id path s e topic = Ok b.
Proof.
  intros Hfile Hreads.
  unfold BoatSimulationState_on_disk, BoatSimulationState_init.
  rewrite lookup_fmap, Hfile. simpl.
  rewrite (proj1 (load_data_on_disk_spec file s e) Hreads).
  split; [done|]. by eexists.
Qed.

Lemma on_disk_reads (d : disk) (id : Z) (path : string) (s e : Z)
    (topic : string) (b : BoatSimulationState) :
  BoatSimulationState_on_disk d id path s e topic = Ok b →
  ∃ file, d !! path = Some file ∧ reads_through file s e.
Proof.
  unfold BoatSimulationState_on_disk.
  destruct (d !! path) as [file|]; [|done].
  destruct (reads_through_dec file s e) as [Hreads|Hnot]; [by eauto|].
  destruct (proj2 (load_data_on_disk_spec file s e) Hnot) as (exc & _ & ->).
  done.
Qed.

(** A boat the constructor returns on the disk is a boat
    [BoatSimulationState_init] returns on the rows of its files, so
    what is proved of the latter holds of it. *)

Lemma on_disk_constructed (d : disk) (id : Z) (path : string) (s e : Z)
    (topic : string) (b : BoatSimulationState) :
  BoatSimulationState_on_disk d id path s e topic = Ok b →
  BoatSimulationState_init (records <$> d) id path s e topic = Ok b ∧
  constructed b.
Proof.
  intros Hb.
  destruct (on_disk_reads d id path s e topic b Hb) as (file & Hfile & Hreads).
  destruct (on_disk_returns d id path s e topic file Hfile Hreads) as [Heq _].
  rewrite Heq in Hb. split; [done|]. by eexists _, _, _, _, _, _.
Qed.

Lemma create_loop_spec (d : disk) (picks : nat → nat) (k : nat)
    (id : Z) (queue : list BoatSimulationState) :
  (∀ i, (i < k)%nat → drawn_file_reads d picks (id + Z.of_nat i)) →
  ∃ new,
    create_loop d picks k id queue = Ok (queue ++ new) ∧
    length new = k ∧
    ∀ i b, new !! i = Some b →
      BoatSimulationState_init (records <$> d) (id + Z.of_nat i)
        (random_choice (picks (Z.to_nat (id + Z.of_nat i))))
        START_ROW END_ROW TOPIC_NAME = Ok b.
Proof.
  revert id queue.
  induction k as [|k IH]; intros id queue Hfiles; simpl.
  - exists []. rewrite app_nil_r. repeat split. intros i b Hi. by destruct i.
  - destruct (Hfiles O ltac:(lia)) as (file & Hfile & Hreads).
    rewrite Z.add_0_r in Hfile.
    destruct (on_disk_returns d id _ START_ROW END_ROW TOPIC_NAME file
                Hfile Hreads) as (Hinit & b & Hb).
    rewrite Hb. rewrite Hb in Hinit.
    destruct (IH (id + 1) (queue ++ [b])) as (new & -> & Hlen & Hnew).
    { intros i Hi.
      replace (id + 1 + Z.of_nat i) with (id + Z.of_nat (S i)) by lia.
      apply Hfiles. lia. }
    exists (b :: new). rewrite <- app_assoc. simpl.
    split; [done|]. split; [by rewrite Hlen|].
    intros [|i] b' Hi; simpl in Hi.
    + injection Hi as <-. by rewrite Z.add_0_r.
    + replace (id + Z.of_nat (S i)) with (id + 1 + Z.of_nat i) by lia.
      by apply Hnew.
Qed.

Lemma create_loop_raises (d : disk) (picks : nat → nat) (k : nat)
    (id : Z) (queue : list BoatSimulationState) (i : nat) :
  (i < k)%nat → ¬ drawn_file_reads d picks (id + Z.of_nat i) →
  ∃ e, create_loop d picks k id queue = Raise e.
Proof.
  revert id queue i.
  induction k as [|k IH]; intros id queue i Hi Hnot; [lia|]. simpl.
  destruct (BoatSimulationState_on_disk d id _ START_ROW END_ROW TOPIC_NAME)
    as [b|e] eqn:Hb; [|by exists e].
  destruct i as [|i].
  - destruct Hnot. rewrite Z.add_0_r. by eapply on_disk_reads.
  - apply (IH (id + 1) (queue ++ [b]) i); [lia|].
    by replace (id + 1 + Z.of_nat i) with (id + Z.of_nat (S i)) by lia.
Qed.

(** X16: when the file drawn for every boat can be opened and read,
    without an error, as far as the row that follows the window, the
    creation loop cannot fail: it queues [N] boats, the boat at
    position [i] with [boat_id = i + 1], one of the six files, the
    configured window of its file and a fresh state, and no two boats
    share a unique id.  When the file drawn for one of the boats cannot
    be opened, or fails before that row, the loop ends in an
    exception. *)
Theorem create_boats_queues_every_boat (d : disk) (picks : nat → nat)
    (n : Z) :
  ((∀ k, 1 ≤ k ≤ n → drawn_file_reads d picks k) →
   ∃ queue,
     create_boats d picks n = Ok queue ∧
     length queue = Z.to_nat n ∧
     (∀ i b, queue !! i = Some b →
        boat_id b = 1 + Z.of_nat i ∧
        file_path b ∈ file_paths ∧
        start_row b = START_ROW ∧ end_row b = END_ROW ∧
        (∃ file, d !! file_path b = Some file ∧
           data_lines b = load_data (records file) START_ROW END_ROW) ∧
        current_index b = O ∧ sent_count b = O ∧ completed b = false) ∧
     Forall constructed queue ∧
     NoDup (unique_boat_id <$> queue)) ∧
  (∀ k, 1 ≤ k ≤ n → ¬ drawn_file_reads d picks k →
   ∃ e, create_boats d picks n = Raise e).
Proof.
  unfold create_boats. split.
  - intros Hfiles.
    destruct (create_loop_spec d picks (Z.to_nat n) 1 []) as
      (queue & Hcreate & Hlen & Hqueue).
    { intros i Hi. apply Hfiles. lia. }
    simpl in Hcreate. exists queue. split; [done|]. split; [done|].
    assert (∀ i b, queue !! i = Some b →
              boat_id b = 1 + Z.of_nat i ∧ file_path b ∈ file_paths ∧
              start_row b = START_ROW ∧ end_row b = END_ROW ∧
              (∃ file, d !! file_path b = Some file ∧
                 data_lines b = load_data (records file) START_ROW END_ROW) ∧
              current_index b = O ∧ sent_count b = O ∧ completed b = false ∧
              unique_boat_id b = "BOAT_" +:+ format_03d (1 + Z.of_nat i))
      as Hfields.
    { intros i b Hi. specialize (Hqueue i b Hi). revert Hqueue.
      unfold BoatSimulationState_init. rewrite lookup_fmap.
      destruct (d !! _) as [file|] eqn:Hfile; [|done]. simpl.
      intros [= <-]. simpl. repeat split; try done.
      - apply random_choice_in.
      - by exists file. }
    split; [|split].
    + intros i b Hi. by destruct (Hfields i b Hi) as (?&?&?&?&?&?&?&?&?).
    + apply Forall_lookup. intros i b Hi. specialize (Hqueue i b Hi).
      by eexists _, _, _, _, _, _.
    + apply NoDup_alt. intros i j id Hi Hj.
      rewrite list_lookup_fmap in Hi, Hj.
      destruct (queue !! i) as [bi|] eqn:Hbi; [|done].
      destruct (queue !! j) as [bj|] eqn:Hbj; [|done].
      simpl in Hi, Hj.
      destruct (Hfields i bi Hbi) as (_&_&_&_&_&_&_&_&Hidi).
      destruct (Hfields j bj Hbj) as (_&_&_&_&_&_&_&_&Hidj).
      assert ("BOAT_" +:+ format_03d (1 + Z.of_nat i)
              = "BOAT_" +:+ format_03d (1 + Z.of_nat j)) as Heq by congruence.
      simpl in Heq. injection Heq as Heq.
      apply format_03d_inj in Heq. lia.
  - intros k Hk Hnot.
    apply (create_loop_raises d picks (Z.to_nat n) 1 [] (Z.to_nat (k - 1)));
      [lia|].
    by replace (1 + Z.of_nat (Z.to_nat (k - 1))) with k by lia.
Qed.

(** X17: the script reaches the start of the pool only when every file
    of [file_paths] can be opened, the broker is reachable and the file
    drawn for every boat can be read as far as the row that follows the
    window, and then with the queue the creation loop builds, [N] boats
    long.  When a file cannot be opened or the broker is not reachable
    it has ended with [exit(1)] before any boat was built; when the
    files open and the broker is reachable but the file drawn for one
    of the boats fails while it is read, it ends in an exception that
    nothing catches. *)
Theorem setup_starts_the_pool_only_when_ready (n w c : Z) (d : disk)
    (kafka_reachable : bool) (picks : nat → nat) :
  calculate_boats_per_thread n w = Ok c →
  true_division_overflows n w = false →
  (all_present d ∧ kafka_reachable = true ∧
   (∀ k, 1 ≤ k ≤ n → drawn_file_reads d picks k) →
     ∃ queue,
       create_boats d picks n = Ok queue ∧
       setup n w d kafka_reachable picks = Returns (c, queue) ∧
       length queue = Z.to_nat n) ∧
  (¬ (all_present d ∧ kafka_reachable = true) →
     setup n w d kafka_reachable picks = Exits 1) ∧
  (all_present d ∧ kafka_reachable = true →
   ∀ k, 1 ≤ k ≤ n → ¬ drawn_file_reads d picks k →
     ∃ e, create_boats d picks n = Raise e ∧
          setup n w d kafka_reachable picks = Uncaught e).
Proof.
  intros Hc Hprint. unfold setup, main. rewrite Hc, Hprint.
  unfold preload_csv_files.
  destruct (preload_loop_spec d file_paths ∅) as [Hyes Hno].
  split; [|split].
  - intros (Hall & -> & Hreads). destruct (Hyes Hall) as (pre & -> & _).
    unfold create_boats.
    destruct (create_loop_spec d picks (Z.to_nat n) 1 [])
      as (queue & Hcreate & Hlen & _).
    { intros i Hi. apply Hreads. lia. }
    simpl in Hcreate. exists queue. by rewrite Hcreate.
  - intros Hnot.
    destruct (decide (Forall (λ p, is_Some (d !! p)) file_paths))
      as [Hall|Hmissing].
    + destruct (Hyes Hall) as (pre & -> & _).
      destruct kafka_reachable; [|done]. by destruct Hnot.
    + by rewrite (Hno Hmissing).
  - intros (Hall & ->) k Hk Hfails. destruct (Hyes Hall) as (pre & -> & _).
    unfold create_boats.
    destruct (create_loop_raises d picks (Z.to_nat n) 1 [] (Z.to_nat (k - 1)))
      as [e He]; [lia| |].
    { by replace (1 + Z.of_nat (Z.to_nat (k - 1))) with k by lia. }
    exists e. by rewrite He.
Qed.

(** ** A whole run *)

Lemma reliable_task_returns (t : Task) :
  reliable (task_env t) → Forall constructed (task_boats t) →
  returned (run_task t) = Ok (row_count (task_boats t)).
Proof.
  intros Hrel Hcons. unfold run_task.
  assert (∃ n, returned (worker_thread_simulation (task_env t) (task_boats t)
                           (task_world t)) = Ok n) as [n Hn].
  { rewrite worker_unfold.
    destruct (rounds_loop_reliable (task_env t) (max_rounds (task_boats t))
                (task_boats t) O (task_world t) Hrel) as [n Hn].
    destruct (rounds_loop _ _ _ _ _) as [[[sched boats'] w'] res].
    by exists n. }
  rewrite Hn. f_equal. by eapply worker_ok_count.
Qed.

Lemma returned_counts_ok (n : nat) (futures : list (result nat)) :
  returned_counts (Ok n :: futures) = n :: returned_counts futures.
Proof. reflexivity. Qed.

Lemma reliable_tasks_total (tasks : list Task) :
  Forall (λ t, reliable (task_env t) ∧ Forall constructed (task_boats t))
    tasks →
  total_messages tasks = sum_list_with (λ t, row_count (task_boats t)) tasks.
Proof.
  intros Hall. unfold total_messages. rewrite collect_results_sum.
  cbn [fst]. rewrite Nat.add_0_l.
  induction Hall as [|t ts [Hrel Hcons] _ IH]; [done|].
  rewrite !fmap_cons, (reliable_task_returns t Hrel Hcons).
  rewrite returned_counts_ok. cbn [sum_list sum_list_with]. by rewrite IH.
Qed.

Lemma row_count_join (batches : list (list BoatSimulationState)) :
  row_count (mjoin batches) = sum_list_with row_count batches.
Proof.
  unfold row_count. induction batches as [|bs rest IH]; [done|].
  simpl. by rewrite sum_list_with_app, IH.
Qed.

Lemma pool_tasks_row_count (envs : nat → Env) (worlds : nat → World)
    (p : Pool BoatSimulationState) :
  sum_list_with (λ t, row_count (task_boats t)) (pool_tasks envs worlds p)
  = row_count (claimed p).
Proof.
  unfold pool_tasks, claimed. rewrite row_count_join.
  generalize (workers p). clear p. intros ws. revert envs worlds.
  induction ws as [|c ws IH]; intros envs worlds; [done|].
  rewrite imap_cons, fmap_cons. simpl.
  by rewrite <- (IH (envs ∘ S) (worlds ∘ S)).
Qed.

(** X18: in a run whose producers never raise, with boats built by the
    constructor, the total of the aggregator is the number of rows held
    by the first [W*C] boats of the queue, whatever the interleaving of
    the claims: the boats behind them are never replayed. *)
Theorem run_total_is_the_rows_of_the_claimed_boats
    (C W : nat) (boats : list BoatSimulationState) (order : list nat)
    (envs : nat → Env) (worlds : nat → World) :
  Forall constructed boats →
  (∀ i, reliable (envs i)) →
  let p := claim_phase C order (start_pool boats W) in
  settled p = true →
  total_messages (pool_tasks envs worlds p) = row_count (take (W * C) boats).
Proof.
  intros Hcons Hrel p Hsettled.
  destruct (claim_phase_fifo_invariant C W boats order) as (_ & Hperm & Hsub).
  fold p in Hperm, Hsub.
  rewrite reliable_tasks_total.
  - pose proof (settled_claimed_length C W boats order Hsettled) as Hlen.
    fold p in Hlen.
    rewrite pool_tasks_row_count. unfold row_count. rewrite Hperm, Hlen.
    rewrite <- take_take. rewrite take_ge; [done|]. rewrite length_take. lia.
  - unfold pool_tasks. apply Forall_lookup. intros i t Hi.
    rewrite list_lookup_imap in Hi.
    destruct (workers p !! i) as [c|] eqn:Hc; [|done].
    injection Hi as <-. simpl. split; [done|].
    apply Forall_forall. intros b Hb.
    apply (proj1 (Forall_forall _ _) Hcons).
    eapply elem_of_sublist; [exact Hb|].
    trans (take (length (claimed p)) boats); [|apply sublist_take].
    exact (Forall_lookup_1 _ _ _ _ Hsub Hc).
Qed.

(** ** A publish that fails *)

Section FailureFacts.

Variable env : Env.

(** X19: a message whose [produce] raises is not sent again: the boat
    has already moved its cursor past the row and counted it, and the
    producer holds nothing more than before. *)
Theorem failed_publish_is_not_retried (b : BoatSimulationState) (w : World)
    (naps : nat) (row : Row) (b' : BoatSimulationState) (w' : World) :
  visit_boat env b w = (Failed naps row, b', w') →
  ∃ source,
    data_lines b !! current_index b = Some source ∧
    unstamped row = <["boat" := unique_boat_id b]> (unstamped source) ∧
    data_lines b' = data_lines b ∧
    current_index b' = S (current_index b) ∧
    sent_count b' = S (sent_count b) ∧
    delivered w' = delivered w ∧
    produce_calls w' = S (produce_calls w).
Proof.
  intros Hvisit.
  assert (has_next_message b = true) as Hnext.
  { destruct (has_next_message b) eqn:Hnext; [done|].
    by rewrite visit_boat_skip in Hvisit. }
  destruct (visit_boat_emission env b w Hnext)
    as (naps0 & source & instant & t & w0 & Hsrc & Heq & _ & _ & _ & _ & _
        & Hcalls & Hdelivered).
  rewrite Heq in Hvisit.
  destruct (produce_raises env (produce_calls w)); [|done].
  injection Hvisit as <- <- <- <-.
  exists source. rewrite unstamped_stamped, Hdelivered, app_nil_r.
  by repeat split.
Qed.

End FailureFacts.

(** * The further properties at concrete inputs *)

(** X1 for the configured 10000 boats and 20 workers. *)
Lemma capacity_between_1_and_50_witness :
  calculate_boats_per_thread N_BOATS MAX_WORKER_THREADS = Ok 50 ∧
  1 ≤ 50 ≤ 50.
Proof.
  assert (calculate_boats_per_thread N_BOATS MAX_WORKER_THREADS = Ok 50)
    as H by reflexivity.
  split; [exact H|].
  exact (capacity_between_1_and_50 N_BOATS MAX_WORKER_THREADS 50 H).
Defined.

(** X2 for 3 boats and 2 workers: the capacity 1 does not cover them. *)
Lemma capacity_covers_every_boat_iff_witness :
  (1 ≤ 3 ∧ 1 ≤ 2 ∧ calculate_boats_per_thread 3 2 = Ok 1) ∧
  (3 ≤ 2 * 1 ↔ 3 ≤ 2 ∨ (2 * 2 ≤ 3 ∧ 3 ≤ 50 * 2)).
Proof.
  assert (1 ≤ 3) as H1 by lia.
  assert (1 ≤ 2) as H2 by lia.
  assert (calculate_boats_per_thread 3 2 = Ok 1) as H3 by reflexivity.
  split; [by repeat split|].
  exact (capacity_covers_every_boat_iff 3 2 1 H1 H2 H3).
Defined.

(** X3 for 7 boats and 3 workers, with the capacity 3 computed for
    them. *)
Lemma computed_capacity_leaves_the_excess_witness :
  let boats := [1; 2; 3; 4; 5; 6; 7]%nat in
  let order := [0; 0; 0; 0; 1; 1; 1; 1; 2; 2]%nat in
  let p := claim_phase (Z.to_nat 3) order (start_pool boats 3) in
  ((1 ≤ length boats)%nat ∧ (1 ≤ 3)%nat ∧
   calculate_boats_per_thread (Z.of_nat (length boats)) (Z.of_nat 3) = Ok 3 ∧
   settled p = true) ∧
  Z.of_nat (length (boat_queue p))
    = Z.max 0 (Z.of_nat (length boats) - Z.of_nat 3 * 3).
Proof.
  intros boats order p.
  assert (1 ≤ length boats)%nat as H1 by (simpl; lia).
  assert (1 ≤ 3)%nat as H2 by lia.
  assert (calculate_boats_per_thread (Z.of_nat (length boats)) (Z.of_nat 3)
            = Ok 3) as H3 by reflexivity.
  assert (settled p = true) as H4 by (vm_compute; reflexivity).
  split; [by repeat split|].
  exact (proj1 (computed_capacity_leaves_the_excess boats 3 3 order
                  H1 H2 H3 H4)).
Defined.



(** X8 on the scenario of the specification. *)
Lemma worker_replays_rows_round_by_round_witness :
  let o := worker_thread_simulation calm scenario_batch world0 in
  (Forall constructed scenario_batch ∧ returned o = Ok 15%nat) ∧
  ∃ messages,
    delivered (world_after o) = delivered world0 ++ messages ∧
    length messages = 15%nat.
Proof.
  intros o.
  assert (Forall constructed scenario_batch) as H1.
  { unfold scenario_batch, boat_of.
    repeat apply Forall_app_2; apply built_constructed. }
  assert (returned o = Ok 15%nat) as H2 by (vm_compute; reflexivity).
  split; [by split|].
  destruct (worker_replays_rows_round_by_round calm scenario_batch world0 15
              H1 H2) as (messages & Hd & _ & _ & Hlen).
  exists messages. split; [exact Hd|].
  rewrite Hlen. vm_compute. reflexivity.
Defined.

(** X10 for boat 1 through five calls. *)
Lemma constructed_boat_counts_its_cursor_witness :
  BoatSimulationState_init sample_files 1 ITA 0 3 "boat_data" = Ok first_boat ∧
  let b' := (run_operations calm
               [OpGetNext; OpCanSend; OpGetNext; OpHasNext; OpGetNext]
               (first_boat, world0)).1 in
  sent_count b' = current_index b' ∧
  (current_index b' ≤ length (data_lines b'))%nat ∧
  has_next_message b' = (current_index b' <? length (data_lines b'))%nat.
Proof.
  assert (BoatSimulationState_init sample_files 1 ITA 0 3 "boat_data"
            = Ok first_boat) as H by (vm_compute; reflexivity).
  split; [exact H|].
  exact (constructed_boat_counts_its_cursor calm sample_files 1 ITA 0 3
           "boat_data" first_boat _ world0 H).
Defined.

(** X11 for the default window on the rows of [ITA]: its first row is
    row 1 of the dataset. *)
Lemma load_data_row_witness :
  0 ≤ START_ROW ∧
  load_data ita_rows START_ROW END_ROW !! 0%nat =
    if decide (Z.of_nat 0 < END_ROW - START_ROW)
    then ita_rows !! (Z.to_nat START_ROW + 0)%nat else None.
Proof.
  assert (0 ≤ START_ROW) as H by (vm_compute; discriminate).
  split; [exact H|].
  exact (load_data_row ita_rows START_ROW END_ROW 0 H).
Defined.

(** X13 for three workers, one of which raised. *)
Lemma completion_order_is_irrelevant_witness :
  let futures := [Ok 3%nat; Raise PublishError; Ok 2%nat] in
  let futures' := [Raise PublishError; Ok 3%nat; Ok 2%nat] in
  futures ≡ₚ futures' ∧
  (collect_results futures O []).1 = (collect_results futures' O []).1.
Proof.
  intros futures futures'.
  assert (futures ≡ₚ futures') as H by apply perm_swap.
  split; [exact H|].
  exact (proj1 (completion_order_is_irrelevant futures futures' H)).
Defined.

(** X14 for boat 1 against itself. *)
Lemma unique_boat_ids_are_unique_witness :
  (BoatSimulationState_init sample_files 1 ITA 0 3 "boat_data" = Ok first_boat ∧
   unique_boat_id first_boat = unique_boat_id first_boat) ∧
  1 = 1.
Proof.
  assert (BoatSimulationState_init sample_files 1 ITA 0 3 "boat_data"
            = Ok first_boat) as H by (vm_compute; reflexivity).
  assert (unique_boat_id first_boat = unique_boat_id first_boat) as H'
    by reflexivity.
  split; [by split|].
  exact (unique_boat_ids_are_unique sample_files sample_files 1 1 ITA ITA
           0 3 0 3 "boat_data" "boat_data" first_boat first_boat H H H').
Defined.

(** X15 for 3 boats and 2 workers on the sample disk, broker down. *)
Lemma main_returns_only_when_ready_witness :
  (calculate_boats_per_thread 3 2 = Ok 1 ∧
   true_division_overflows 3 2 = false) ∧
  (¬ (all_present sample_disk ∧ false = true) →
   main 3 2 sample_disk false = Exits 1).
Proof.
  assert (calculate_boats_per_thread 3 2 = Ok 1) as H1 by reflexivity.
  assert (true_division_overflows 3 2 = false) as H2
    by (vm_compute; reflexivity).
  split; [by split|].
  exact (proj2 (main_returns_only_when_ready 3 2 1 sample_disk false H1 H2)).
Defined.

(** On the sample disk every drawn file reads to its end; on the
    damaged disk the file of boat 1, [ITA], fails after its three rows,
    before the row that follows the window. *)
Lemma sample_disk_reads (k : Z) : drawn_file_reads sample_disk (λ k, k) k.
Proof.
  exists sample_file. split; [|by left].
  pose proof (random_choice_in (Z.to_nat k)) as Hin.
  generalize dependent (random_choice (Z.to_nat k)). intros path Hin.
  unfold file_paths in Hin.
  repeat (apply elem_of_cons in Hin as [->|Hin]; [vm_compute; reflexivity|]).
  by apply elem_of_nil in Hin.
Qed.

Lemma damaged_disk_fails (k : Z) : ¬ drawn_file_reads damaged_disk (λ _, O) k.
Proof.
  intros (file & Hfile & Hreads).
  assert (damaged_disk !! random_choice 0 = Some damaged_file) as Hdamaged
    by (vm_compute; reflexivity).
  rewrite Hdamaged in Hfile. injection Hfile as <-.
  destruct Hreads as [Hnone|Hlong]; [done|].
  vm_compute in Hlong. lia.
Qed.

Example damaged_file_ends_the_script :
  create_boats damaged_disk (λ _, O) 3 = Raise UnicodeDecodeError ∧
  main 3 2 damaged_disk true = main 3 2 sample_disk true ∧
  setup 3 2 damaged_disk true (λ _, O) = Uncaught UnicodeDecodeError.
Proof. vm_compute. repeat split. Qed.

(** X16 for 3 boats on the sample disk, and on the damaged disk with
    [ITA] drawn for every boat. *)
Lemma create_boats_queues_every_boat_witness :
  (∀ k, 1 ≤ k ≤ 3 → drawn_file_reads sample_disk (λ k, k) k) ∧
  (∃ queue,
     create_boats sample_disk (λ k, k) 3 = Ok queue ∧
     length queue = Z.to_nat 3) ∧
  (1 ≤ 1 ≤ 3 ∧ ¬ drawn_file_reads damaged_disk (λ _, O) 1) ∧
  ∃ e, create_boats damaged_disk (λ _, O) 3 = Raise e.
Proof.
  assert (∀ k, 1 ≤ k ≤ 3 → drawn_file_reads sample_disk (λ k, k) k) as H
    by (intros k _; apply sample_disk_reads).
  assert (1 ≤ 1 ≤ 3) as H1 by lia.
  assert (¬ drawn_file_reads damaged_disk (λ _, O) 1) as H2
    by apply damaged_disk_fails.
  split; [exact H|]. split.
  - destruct (proj1 (create_boats_queues_every_boat sample_disk (λ k, k) 3) H)
      as (queue & Hq & Hlen & _).
    exists queue. by split.
  - split; [by split|].
    exact (proj2 (create_boats_queues_every_boat damaged_disk (λ _, O) 3)
             1 H1 H2).
Defined.

(** X17 for 3 boats and 2 workers, broker up: on the sample disk the
    pool is reached, on the damaged disk it is not. *)
Lemma setup_starts_the_pool_only_when_ready_witness :
  (calculate_boats_per_thread 3 2 = Ok 1 ∧
   true_division_overflows 3 2 = false ∧
   all_present sample_disk ∧
   (∀ k, 1 ≤ k ≤ 3 → drawn_file_reads sample_disk (λ k, k) k)) ∧
  (∃ queue,
     setup 3 2 sample_disk true (λ k, k) = Returns (1, queue) ∧
     length queue = Z.to_nat 3) ∧
  (all_present damaged_disk ∧ 1 ≤ 1 ≤ 3 ∧
   ¬ drawn_file_reads damaged_disk (λ _, O) 1) ∧
  ∃ e, setup 3 2 damaged_disk true (λ _, O) = Uncaught e.
Proof.
  assert (calculate_boats_per_thread 3 2 = Ok 1) as H1 by reflexivity.
  assert (true_division_overflows 3 2 = false) as H2
    by (vm_compute; reflexivity).
  assert (all_present sample_disk) as H3
    by (apply (bool_decide_unpack _); vm_compute; exact I).
  assert (∀ k, 1 ≤ k ≤ 3 → drawn_file_reads sample_disk (λ k, k) k) as H4
    by (intros k _; apply sample_disk_reads).
  assert (all_present damaged_disk) as H5
    by (apply (bool_decide_unpack _); vm_compute; exact I).
  assert (1 ≤ 1 ≤ 3) as H6 by lia.
  assert (¬ drawn_file_reads damaged_disk (λ _, O) 1) as H7
    by apply damaged_disk_fails.
  split; [by repeat split|]. split.
  - destruct (proj1 (setup_starts_the_pool_only_when_ready 3 2 1 sample_disk
                       true (λ k, k) H1 H2) (conj H3 (conj eq_refl H4)))
      as (queue & _ & Hsetup & Hlen).
    exists queue. by split.
  - split; [by repeat split|].
    destruct (proj2 (proj2 (setup_starts_the_pool_only_when_ready 3 2 1
                              damaged_disk true (λ _, O) H1 H2))
                (conj H5 eq_refl) 1 H6 H7) as (e & _ & He).
    by exists e.
Defined.

(** X18 for three boats and two workers of capacity 1: the third boat
    is not replayed. *)
Lemma run_total_is_the_rows_of_the_claimed_boats_witness :
  let p := claim_phase 1 sample_order (start_pool sample_queue 2) in
  (Forall constructed sample_queue ∧ (∀ i : nat, reliable calm) ∧
   settled p = true) ∧
  total_messages (pool_tasks (λ _, calm) (λ _, world0) p)
    = row_count (take (2 * 1) sample_queue).
Proof.
  intros p.
  assert (Forall constructed sample_queue) as H1.
  { unfold sample_queue, boat_of.
    repeat apply Forall_app_2; apply built_constructed. }
  assert (∀ i : nat, reliable calm) as H2 by (intros i k; reflexivity).
  assert (settled p = true) as H3 by (vm_compute; reflexivity).
  split; [by repeat split|].
  exact (run_total_is_the_rows_of_the_claimed_boats 1 2 sample_queue
           sample_order (λ _, calm) (λ _, world0) H1 H2 H3).
Defined.

(** X19 for boat 1 with a producer whose first call raises. *)
Lemma failed_publish_is_not_retried_witness :
  let r := visit_boat (failing_at 0) first_boat world0 in
  r = (Failed 0 first_message, r.1.2, r.2) ∧
  current_index r.1.2 = 1%nat ∧
  delivered r.2 = delivered world0.
Proof.
  intros r.
  assert (r = (Failed 0 first_message, r.1.2, r.2)) as H
    by (vm_compute; reflexivity).
  split; [exact H|].
  destruct (failed_publish_is_not_retried (failing_at 0) first_boat world0 0
              first_message r.1.2 r.2 H)
    as (source & _ & _ & _ & Hidx & _ & Hd & _).
  split; [exact Hidx|exact Hd].
Defined.

(** X4 for 7 boats, 3 workers of capacity 2, the workers taking turns:
    the first six boats are claimed and the seventh is left. *)
Lemma claim_phase_is_first_come_first_served_witness :
  let boats := [1; 2; 3; 4; 5; 6; 7]%nat in
  let order := [0; 1; 2; 0; 1; 2; 0; 1; 2]%nat in
  let p := claim_phase 2 order (start_pool boats 3) in
  settled p = true ∧
  boat_queue p = drop (length (claimed p)) boats ∧
  length (claimed p) = (length boats `min` (3 * 2))%nat.
Proof.
  intros boats order p.
  assert (settled p = true) as H by (vm_compute; reflexivity).
  split; [exact H|].
  destruct (claim_phase_is_first_come_first_served 2 3 boats order)
    as (Hq & _ & _ & Hk).
  split; [exact Hq|exact (Hk H)].
Defined.

(** X7 on the scenario of the specification: the 15 returned are the 15
    messages the producer accepted. *)
Lemma worker_returns_what_the_producer_accepted_witness :
  let o := worker_thread_simulation calm scenario_batch world0 in
  returned o = Ok 15%nat ∧
  15%nat = length (sent_messages (schedule o)).
Proof.
  intros o.
  assert (returned o = Ok 15%nat) as H by (vm_compute; reflexivity).
  split; [exact H|].
  exact (proj2 (proj2 (worker_returns_what_the_producer_accepted calm
                         scenario_batch world0)) 15%nat H).
Defined.

(** X9 for a boat that has sent its three rows: further calls leave it
    completed. *)
Lemma operations_only_advance_the_cursor_witness :
  let ops := [OpGetNext; OpHasNext; OpCanSend; OpGetNext] in
  completed spent_boat = true ∧
  completed (run_operations calm ops (spent_boat, world0)).1 = true.
Proof.
  intros ops.
  assert (completed spent_boat = true) as H by reflexivity.
  split; [exact H|].
  destruct (operations_only_advance_the_cursor calm ops spent_boat world0)
    as (_ & _ & _ & _ & _ & Hdone).
  exact (Hdone H).
Defined.

(** X12 on the three rows of [ITA]: an empty window, a window behind the
    end, a window from a negative start, and a window inside the
    dataset. *)
Lemma load_data_edges_witness :
  load_data ita_rows 2 1 = [] ∧
  load_data ita_rows 3 5 = [] ∧
  load_data ita_rows (-1) 1 = take 2 ita_rows ∧
  Z.of_nat (length (load_data ita_rows 1 3)) = 3 - 1.
Proof.
  assert (1 ≤ 2) as H1 by lia.
  assert (Z.of_nat (length ita_rows) ≤ 3) as H2 by (vm_compute; discriminate).
  assert (-1 ≤ 0) as H3 by lia.
  assert (0 ≤ 1 ≤ 3) as H4 by lia.
  assert (3 ≤ Z.of_nat (length ita_rows)) as H5 by (vm_compute; discriminate).
  split; [exact (proj1 (load_data_edges ita_rows 2 1) H1)|].
  split; [exact (proj1 (proj2 (load_data_edges ita_rows 3 5)) H2)|].
  split; [exact (proj1 (proj2 (proj2 (load_data_edges ita_rows (-1) 1))) H3)|].
  exact (proj2 (proj2 (proj2 (load_data_edges ita_rows 1 3))) H4 H5).
Defined.
